(** * Memory-matching card game (script.js): shallow embedding and properties

    The JavaScript engine keeps one global [gameState] object, an array of
    card objects that closures may keep alive after a restart, and a set of
    callbacks registered with [setTimeout] / [setInterval].  The embedding
    makes all three explicit:

    - card objects live in an append-only store [cardObjs] and are referred
      to by location, so that a closure holding an old card keeps mutating
      the old object and not the card of the same index in a newer deck;
    - string arrays that are shuffled in place live in the store [arrays];
    - pending callbacks live in [tasks], keyed by the handle the browser
      returned (a positive integer, hence always truthy); the environment
      decides which pending callback fires next.

    DOM rendering is not modelled, apart from the active screen, the open
    modals, and a log of the two displays the properties talk about (hint
    highlights and the win screen). *)

From Stdlib Require Import ZArith List String Lia Permutation Bool.
From stdpp Require Import base option list gmap strings.
Import ListNotations.

Set Default Proof Using "Type".

(** ** Configuration (script.js, lines 3-10) *)

Record Config := { rows : Z; cols : Z; pairs : Z }.

Definition difficulties : gmap string Config :=
  <["easy"   := {| rows := 4; cols := 4; pairs := 8 |}]>
  (<["medium" := {| rows := 4; cols := 5; pairs := 10 |}]>
  (<["hard"   := {| rows := 5; cols := 6; pairs := 15 |}]> ∅)).

Definition flowers : list string :=
  ["🌸"; "🌺"; "🌹"; "🌻"; "🌼"; "💐"; "🌷"; "🌿";
   "🥀"; "🪷"; "🌾"; "🍀"; "🌱"; "☘️"; "🎋"].

(** [gameConfig.difficulties] is a plain object literal, so a property read
    with a key it does not own falls through to [Object.prototype]. *)
Definition objectPrototypeKeys : list string :=
  ["constructor"; "hasOwnProperty"; "isPrototypeOf"; "propertyIsEnumerable";
   "toLocaleString"; "toString"; "valueOf"; "__proto__";
   "__defineGetter__"; "__defineSetter__"; "__lookupGetter__";
   "__lookupSetter__"].

(** The value of [gameConfig.difficulties[difficulty]]: one of the presets,
    some inherited object or function (every property the game reads from
    it is [undefined]), or [undefined] itself. *)
Inductive JsConfig :=
| CfgUndefined
| CfgInherited
| CfgPreset (c : Config).

Definition lookupDifficulty (d : string) : JsConfig :=
  match difficulties !! d with
  | Some c => CfgPreset c
  | None =>
      if bool_decide (d ∈ objectPrototypeKeys) then CfgInherited
      else CfgUndefined
  end.

(** The three names of the presets, for statements that range over them. *)
Inductive Preset := Easy | Medium | Hard.

Definition presetName (p : Preset) : string :=
  match p with Easy => "easy" | Medium => "medium" | Hard => "hard" end.

Definition presetPairs (p : Preset) : Z :=
  match p with Easy => 8 | Medium => 10 | Hard => 15 end%Z.

(** ** Game state (script.js, lines 13-23) *)

(** Locations in the stores. *)
Abbreviation loc := nat (only parsing).

Record Card := { id : Z; value : string; flipped : bool; matched : bool }.

Record GameState := {
  cards : list loc;
  flippedCards : list Z;
  matchedPairs : Z;
  moveCount : Z;
  gameActive : bool;
  timer : Z;
  timerInterval : option positive;
  currentDifficulty : string;
  hints : Z
}.

(** The object literal of lines 63-73. *)
Definition freshState (difficulty : string) : GameState :=
  {| cards := []; flippedCards := []; matchedPairs := 0; moveCount := 0;
     gameActive := true; timer := 0; timerInterval := None;
     currentDifficulty := difficulty; hints := 3 |}.

(** The object literal of lines 13-23. *)
Definition initialState : GameState :=
  {| cards := []; flippedCards := []; matchedPairs := 0; moveCount := 0;
     gameActive := false; timer := 0; timerInterval := None;
     currentDifficulty := "easy"; hints := 3 |}.

(** ** Environment: callbacks, random source, displays *)

(** The callbacks the script registers. [TFlipBack] carries the two card
    objects captured by the closure of lines 194-199; the other closures
    capture nothing but the global variable [gameState]. *)
Inductive Task :=
| TTick
| TFlipBack (firstCard secondCard : loc)
| TShowWin
| TUnhint (cardId : Z).

(** A result of [Math.random()]: the rational [s_num / (s_num + s_gap + 1)],
    which lies in the half-open unit interval. *)
Record Sample := { s_num : nat; s_gap : nat }.

Inductive UiEvent :=
| UiHint (cardId : Z)
| UiWin (time moves : Z) (score : option Z).

Record World := {
  gs : GameState;
  cardObjs : list Card;
  arrays : list (list string);
  tasks : gmap positive Task;
  nextHandle : positive;
  screen : string;
  modals : gset string;
  random : nat -> Sample;
  draws : nat;
  ui : list UiEvent
}.

Definition initialWorld (rnd : nat -> Sample) : World :=
  {| gs := initialState; cardObjs := []; arrays := []; tasks := ∅;
     nextHandle := 1%positive; screen := "main-screen"; modals := ∅;
     random := rnd; draws := 0; ui := [] |}.

(** *** Field updates *)

Definition set_gs (g : GameState) (w : World) : World :=
  {| gs := g; cardObjs := cardObjs w; arrays := arrays w; tasks := tasks w;
     nextHandle := nextHandle w; screen := screen w; modals := modals w;
     random := random w; draws := draws w; ui := ui w |}.
Definition set_cardObjs (h : list Card) (w : World) : World :=
  {| gs := gs w; cardObjs := h; arrays := arrays w; tasks := tasks w;
     nextHandle := nextHandle w; screen := screen w; modals := modals w;
     random := random w; draws := draws w; ui := ui w |}.
Definition set_arrays (a : list (list string)) (w : World) : World :=
  {| gs := gs w; cardObjs := cardObjs w; arrays := a; tasks := tasks w;
     nextHandle := nextHandle w; screen := screen w; modals := modals w;
     random := random w; draws := draws w; ui := ui w |}.
Definition set_tasks (t : gmap positive Task) (w : World) : World :=
  {| gs := gs w; cardObjs := cardObjs w; arrays := arrays w; tasks := t;
     nextHandle := nextHandle w; screen := screen w; modals := modals w;
     random := random w; draws := draws w; ui := ui w |}.
Definition set_nextHandle (n : positive) (w : World) : World :=
  {| gs := gs w; cardObjs := cardObjs w; arrays := arrays w; tasks := tasks w;
     nextHandle := n; screen := screen w; modals := modals w;
     random := random w; draws := draws w; ui := ui w |}.
Definition set_screen (s : string) (w : World) : World :=
  {| gs := gs w; cardObjs := cardObjs w; arrays := arrays w; tasks := tasks w;
     nextHandle := nextHandle w; screen := s; modals := modals w;
     random := random w; draws := draws w; ui := ui w |}.
Definition set_modals (m : gset string) (w : World) : World :=
  {| gs := gs w; cardObjs := cardObjs w; arrays := arrays w; tasks := tasks w;
     nextHandle := nextHandle w; screen := screen w; modals := m;
     random := random w; draws := draws w; ui := ui w |}.
Definition set_draws (n : nat) (w : World) : World :=
  {| gs := gs w; cardObjs := cardObjs w; arrays := arrays w; tasks := tasks w;
     nextHandle := nextHandle w; screen := screen w; modals := modals w;
     random := random w; draws := n; ui := ui w |}.
Definition set_ui (u : list UiEvent) (w : World) : World :=
  {| gs := gs w; cardObjs := cardObjs w; arrays := arrays w; tasks := tasks w;
     nextHandle := nextHandle w; screen := screen w; modals := modals w;
     random := random w; draws := draws w; ui := u |}.

Definition set_cards (c : list loc) (g : GameState) : GameState :=
  {| cards := c; flippedCards := flippedCards g;
     matchedPairs := matchedPairs g; moveCount := moveCount g;
     gameActive := gameActive g; timer := timer g;
     timerInterval := timerInterval g;
     currentDifficulty := currentDifficulty g; hints := hints g |}.
Definition set_flippedCards (f : list Z) (g : GameState) : GameState :=
  {| cards := cards g; flippedCards := f;
     matchedPairs := matchedPairs g; moveCount := moveCount g;
     gameActive := gameActive g; timer := timer g;
     timerInterval := timerInterval g;
     currentDifficulty := currentDifficulty g; hints := hints g |}.
Definition set_matchedPairs (n : Z) (g : GameState) : GameState :=
  {| cards := cards g; flippedCards := flippedCards g;
     matchedPairs := n; moveCount := moveCount g;
     gameActive := gameActive g; timer := timer g;
     timerInterval := timerInterval g;
     currentDifficulty := currentDifficulty g; hints := hints g |}.
Definition set_moveCount (n : Z) (g : GameState) : GameState :=
  {| cards := cards g; flippedCards := flippedCards g;
     matchedPairs := matchedPairs g; moveCount := n;
     gameActive := gameActive g; timer := timer g;
     timerInterval := timerInterval g;
     currentDifficulty := currentDifficulty g; hints := hints g |}.
Definition set_gameActive (b : bool) (g : GameState) : GameState :=
  {| cards := cards g; flippedCards := flippedCards g;
     matchedPairs := matchedPairs g; moveCount := moveCount g;
     gameActive := b; timer := timer g;
     timerInterval := timerInterval g;
     currentDifficulty := currentDifficulty g; hints := hints g |}.
Definition set_timer (n : Z) (g : GameState) : GameState :=
  {| cards := cards g; flippedCards := flippedCards g;
     matchedPairs := matchedPairs g; moveCount := moveCount g;
     gameActive := gameActive g; timer := n;
     timerInterval := timerInterval g;
     currentDifficulty := currentDifficulty g; hints := hints g |}.
Definition set_timerInterval (h : option positive) (g : GameState) : GameState :=
  {| cards := cards g; flippedCards := flippedCards g;
     matchedPairs := matchedPairs g; moveCount := moveCount g;
     gameActive := gameActive g; timer := timer g;
     timerInterval := h;
     currentDifficulty := currentDifficulty g; hints := hints g |}.
Definition set_currentDifficulty (d : string) (g : GameState) : GameState :=
  {| cards := cards g; flippedCards := flippedCards g;
     matchedPairs := matchedPairs g; moveCount := moveCount g;
     gameActive := gameActive g; timer := timer g;
     timerInterval := timerInterval g;
     currentDifficulty := d; hints := hints g |}.
Definition set_hints (n : Z) (g : GameState) : GameState :=
  {| cards := cards g; flippedCards := flippedCards g;
     matchedPairs := matchedPairs g; moveCount := moveCount g;
     gameActive := gameActive g; timer := timer g;
     timerInterval := timerInterval g;
     currentDifficulty := currentDifficulty g; hints := n |}.

Definition set_flipped (b : bool) (c : Card) : Card :=
  {| id := id c; value := value c; flipped := b; matched := matched c |}.
Definition set_matched (b : bool) (c : Card) : Card :=
  {| id := id c; value := value c; flipped := flipped c; matched := b |}.

(** ** The monad of event handlers

    A handler runs to completion on the single thread.  When it throws,
    the mutations it made before the throw stay in place and the exception
    ends the handler. *)

Inductive JsError := TypeError.

Inductive Outcome (A : Type) :=
| Done (a : A)
| Threw (e : JsError).
Arguments Done {A} a.
Arguments Threw {A} e.

Definition M (A : Type) : Type := World -> Outcome A * World.

Definition ret {A} (a : A) : M A := fun w => (Done a, w).
Definition throw {A} (e : JsError) : M A := fun w => (Threw e, w).
Definition bind {A B} (m : M A) (k : A -> M B) : M B :=
  fun w =>
    match m w with
    | (Done a, w') => k a w'
    | (Threw e, w') => (Threw e, w')
    end.
Definition gets {A} (f : World -> A) : M A := fun w => (Done (f w), w).
Definition modify (f : World -> World) : M unit := fun w => (Done tt, f w).
Definition modify_gs (f : GameState -> GameState) : M unit :=
  modify (fun w => set_gs (f (gs w)) w).

Declare Scope js_scope.
Delimit Scope js_scope with js.
Notation "'let*' x ':=' m 'in' k" := (bind m (fun x => k))
  (at level 10, x name, m at level 100, k at level 200) : js_scope.
Notation "m ;; k" := (bind m (fun _ => k))
  (at level 100, k at level 200, right associativity) : js_scope.
Local Open Scope js_scope.

(** [forEach] over a JavaScript array held by value. *)
Fixpoint forEach {A} (f : A -> M unit) (l : list A) : M unit :=
  match l with
  | [] => ret tt
  | x :: l' => f x ;; forEach f l'
  end.

(** ** Deck shuffling (script.js, lines 119-125) *)

Definition mathRandom : M Sample :=
  fun w => (Done (random w (draws w)), set_draws (S (draws w)) w).

(** [Math.floor(r * n)] for the rational [r]. *)
Definition floorMul (r : Sample) (n : nat) : nat :=
  (s_num r * n) / (s_num r + s_gap r + 1).

(** [[array[i], array[j]] = [array[j], array[i]]]: both reads happen before
    both writes.  The loop only calls it with [j <= i < array.length]. *)
Definition swapList (xs : list string) (i j : nat) : list string :=
  match xs !! i, xs !! j with
  | Some x, Some y => <[j := x]> (<[i := y]> xs)
  | _, _ => xs
  end.

Definition swapAt (array : loc) (i j : nat) : M unit :=
  modify (fun w =>
    match arrays w !! array with
    | Some xs => set_arrays (<[array := swapList xs i j]> (arrays w)) w
    | None => w
    end).

(** The body of the [for] loop, from index [i] down to 1. *)
Fixpoint shuffleLoop (array : loc) (i : nat) : M unit :=
  match i with
  | O => ret tt
  | S i' =>
      let* r := mathRandom in
      let j := floorMul r (i + 1) in
      swapAt array i j ;;
      shuffleLoop array i'
  end.

Definition arrayLength (array : loc) : M nat :=
  gets (fun w => length (default [] (arrays w !! array))).

(** The array is shuffled in place and the same reference is returned. *)
Definition shuffleArray (array : loc) : M loc :=
  let* n := arrayLength array in
  shuffleLoop array (n - 1) ;;
  ret array.

(** ** Timers and screens *)

Definition setTimer (t : Task) : M positive :=
  fun w =>
    let h := nextHandle w in
    (Done h, set_nextHandle (Pos.succ h) (set_tasks (<[h := t]> (tasks w)) w)).

(** [clearInterval(x)]; a [null] or stale handle clears nothing. *)
Definition clearInterval (h : option positive) : M unit :=
  match h with
  | Some h => modify (fun w => set_tasks (delete h (tasks w)) w)
  | None => ret tt
  end.

(** Lines 44-55. *)
Definition showScreen (screenId : string) : M unit :=
  modify (set_screen screenId) ;;
  let* g := gets gs in
  if negb (String.eqb screenId "game-screen") && bool_decide (is_Some (timerInterval g))
  then
    clearInterval (timerInterval g) ;;
    modify_gs (set_timerInterval None)
  else ret tt.

(** Lines 215-227. *)
Definition startTimer : M unit :=
  let* g := gets gs in
  (if bool_decide (is_Some (timerInterval g))
   then clearInterval (timerInterval g) else ret tt) ;;
  modify_gs (set_timer 0) ;;
  let* h := setTimer TTick in
  modify_gs (set_timerInterval (Some h)).

(** A property read [config.f]: a [TypeError] on [undefined], the value
    [undefined] (here [None]) on an inherited object. *)
Definition readProp (f : Config -> Z) (config : JsConfig) : M (option Z) :=
  match config with
  | CfgUndefined => throw TypeError
  | CfgInherited => ret None
  | CfgPreset c => ret (Some (f c))
  end.

(** Lines 207-212: only the property read can be observed, the rest
    writes text into the page. *)
Definition updateScore : M unit :=
  let* g := gets gs in
  let config := lookupDifficulty (currentDifficulty g) in
  readProp pairs config ;;
  ret tt.

(** Lines 128-153 rebuild the grid with one element per card of
    [gameState.cards]; nothing of the game state changes. *)
Definition renderCards : M unit := ret tt.

(** ** Deck creation (script.js, lines 89-116) *)

(** [flowers.slice(0, end)]. *)
Definition slice0 (l : list string) (pend : option Z) : list string :=
  match pend with
  | None => l
  | Some e =>
      if (e <? 0)%Z then take (Z.to_nat (Z.of_nat (length l) + e)) l
      else take (Z.to_nat e) l
  end.

Definition allocArray (xs : list string) : M loc :=
  fun w => (Done (length (arrays w)), set_arrays (arrays w ++ [xs]) w).

Definition readArray (array : loc) : M (list string) :=
  gets (fun w => default [] (arrays w !! array)).

Definition newCard (index : nat) (v : string) : Card :=
  {| id := Z.of_nat index; value := v; flipped := false; matched := false |}.

(** [cardValues.map((value, index) => ({...}))]: one new object per value,
    returned as the array of their references. *)
Definition allocCards (vals : list string) : M (list loc) :=
  fun w =>
    (Done (seq (length (cardObjs w)) (length vals)),
     set_cardObjs (cardObjs w ++ imap newCard vals) w).

Definition createCards (config : JsConfig) : M unit :=
  readProp cols config ;;
  let* p := readProp pairs config in
  let selectedFlowers := slice0 flowers p in
  let* cardValues := allocArray (selectedFlowers ++ selectedFlowers) in
  let* cardValues := shuffleArray cardValues in
  let* vals := readArray cardValues in
  let* cs := allocCards vals in
  modify_gs (set_cards cs) ;;
  renderCards ;;
  readProp pairs config ;;
  ret tt.

(** ** Starting a game (script.js, lines 58-86) *)

Definition startGame (difficulty : string) : M unit :=
  modify_gs (set_currentDifficulty difficulty) ;;
  let config := lookupDifficulty difficulty in
  modify_gs (fun _ => freshState difficulty) ;;
  createCards config ;;
  updateScore ;;
  showScreen "game-screen" ;;
  startTimer.

(** ** Card selection (script.js, lines 156-204) *)

(** [array[i]] for a number [i]: [undefined] outside the array. *)
Definition nthZ {A} (l : list A) (i : Z) : option A :=
  if (0 <=? i)%Z then l !! Z.to_nat i else None.

Definition dummyCard : Card :=
  {| id := 0; value := ""; flipped := false; matched := false |}.

(** Reading a card object through a reference. References never dangle in
    JavaScript; [dummyCard] only makes the function total. *)
Definition deref (h : list Card) (l : loc) : Card := default dummyCard (h !! l).

Definition readCard (l : loc) : M Card := gets (fun w => deref (cardObjs w) l).

Definition writeCard (l : loc) (f : Card -> Card) : M unit :=
  modify (fun w => set_cardObjs (alter f l (cardObjs w)) w).

(** [gameState.cards[i]], and the [TypeError] of reading a property of the
    result when it is [undefined]. *)
Definition cardAt (i : Z) : M loc :=
  let* g := gets gs in
  match nthZ (cards g) i with
  | Some l => ret l
  | None => throw TypeError
  end.

(** The callback of lines 194-199. *)
Definition flipBack (firstCard secondCard : loc) : M unit :=
  writeCard firstCard (set_flipped false) ;;
  writeCard secondCard (set_flipped false) ;;
  modify_gs (set_flippedCards []) ;;
  renderCards.

(** Lines 172-203, entered when two cards are flipped. *)
Definition resolvePair : M unit :=
  modify_gs (fun g => set_moveCount (moveCount g + 1) g) ;;
  updateScore ;;
  let* g := gets gs in
  let firstId := flippedCards g !! 0 in
  let secondId := flippedCards g !! 1 in
  match firstId, secondId with
  | Some firstId, Some secondId =>
      let* firstCard := cardAt firstId in
      let* secondCard := cardAt secondId in
      let* c1 := readCard firstCard in
      let* c2 := readCard secondCard in
      (if String.eqb (value c1) (value c2) then
         writeCard firstCard (set_matched true) ;;
         writeCard secondCard (set_matched true) ;;
         modify_gs (fun g => set_matchedPairs (matchedPairs g + 1) g) ;;
         modify_gs (set_flippedCards []) ;;
         let* g := gets gs in
         let config := lookupDifficulty (currentDifficulty g) in
         let* p := readProp pairs config in
         if bool_decide (p = Some (matchedPairs g))
         then setTimer TShowWin ;; ret tt
         else ret tt
       else
         setTimer (TFlipBack firstCard secondCard) ;; ret tt) ;;
      renderCards
  | _, _ => throw TypeError
  end.

Definition handleCardClick (cardId : Z) : M unit :=
  let* g := gets gs in
  if negb (gameActive g) then ret tt else
  let* card := cardAt cardId in
  let* c := readCard card in
  if flipped c || matched c || (2 <=? length (flippedCards g))
  then ret tt
  else
    writeCard card (set_flipped true) ;;
    modify_gs (fun g => set_flippedCards (flippedCards g ++ [cardId]) g) ;;
    renderCards ;;
    let* g := gets gs in
    if length (flippedCards g) =? 2 then resolvePair else ret tt.

(** ** Winning (script.js, lines 230-252) *)

Definition timeBonus (g : GameState) : Z := Z.max 0 (300 - timer g).

(** [Math.max(0, config.pairs * 10 - moveCount)]; [None] stands for the
    [NaN] obtained when [config.pairs] is [undefined]. *)
Definition moveBonus (p : option Z) (g : GameState) : option Z :=
  match p with
  | Some p => Some (Z.max 0 (p * 10 - moveCount g))
  | None => None
  end.

Definition difficultyBonusTable : gmap string Z :=
  <["easy" := 100%Z]> (<["medium" := 200%Z]> (<["hard" := 300%Z]> ∅)).

(** The bonus is a number only for the three names of the table. *)
Definition difficultyBonus (d : string) : option Z := difficultyBonusTable !! d.

(** [timeBonus + moveBonus + difficultyBonus]; [None] when one of the
    operands is not a number. *)
Definition totalScore (p : option Z) (g : GameState) : option Z :=
  match moveBonus p g, difficultyBonus (currentDifficulty g) with
  | Some mb, Some db => Some (timeBonus g + mb + db)%Z
  | _, _ => None
  end.

Definition logUi (e : UiEvent) : M unit :=
  modify (fun w => set_ui (ui w ++ [e]) w).

Definition showWinScreen : M unit :=
  let* g := gets gs in
  clearInterval (timerInterval g) ;;
  modify_gs (set_gameActive false) ;;
  let* g := gets gs in
  let config := lookupDifficulty (currentDifficulty g) in
  let* p := readProp pairs config in
  logUi (UiWin (timer g) (moveCount g) (totalScore p g)) ;;
  showScreen "win-screen".

(** ** Hints (script.js, lines 255-295) *)

(** [flowerGroups] is an object used as a map from symbol to array of
    ids. [for ... in] enumerates its keys in insertion order (the symbols
    are not array indices), so the order of first insertion is kept. *)
Fixpoint groupPush (groups : list (string * list Z)) (c : Card)
  : list (string * list Z) :=
  match groups with
  | [] => [(value c, [id c])]
  | (k, ids) :: rest =>
      if String.eqb k (value c) then (k, ids ++ [id c]) :: rest
      else (k, ids) :: groupPush rest c
  end.

Definition flowerGroupsOf (unmatchedCards : list Card) : list (string * list Z) :=
  foldl groupPush [] unmatchedCards.

(** The loop of lines 274-279. *)
Definition findHintPair (groups : list (string * list Z)) : option (list Z) :=
  match List.find (fun kv => 2 <=? length (snd kv)) groups with
  | Some (_, ids) => Some (take 2 ids)
  | None => None
  end.

Definition unmatchedCardsOf (h : list Card) (cs : list loc) : list Card :=
  List.filter (fun c => negb (matched c) && negb (flipped c)) (map (deref h) cs).

(** Lines 283-291: the grid has one [.card] element per card, so the
    element exists exactly when [cardId] is an index of the deck. *)
Definition highlight (cardId : Z) : M unit :=
  let* g := gets gs in
  match nthZ (cards g) cardId with
  | Some _ => logUi (UiHint cardId) ;; setTimer (TUnhint cardId) ;; ret tt
  | None => throw TypeError
  end.

Definition hint : M unit :=
  let* g := gets gs in
  if (hints g <=? 0)%Z || negb (gameActive g) then ret tt else
  let* h := gets cardObjs in
  let unmatchedCards := unmatchedCardsOf h (cards g) in
  if length unmatchedCards <? 2 then ret tt else
  let flowerGroups := flowerGroupsOf unmatchedCards in
  match findHintPair flowerGroups with
  | Some hintPair =>
      forEach highlight hintPair ;;
      modify_gs (fun g => set_hints (hints g - 1) g)
  | None => ret tt
  end.

(** ** Restart and quit (script.js, lines 298-325) *)

(** [confirmed] is the answer given to the [confirm] dialog. *)
Definition restartGame (confirmed : bool) : M unit :=
  if confirmed then
    let* g := gets gs in startGame (currentDifficulty g)
  else ret tt.

(** Lines 310-319: the modals that carry the class [active]. *)
Definition showModal (modalId : string) : M unit :=
  modify (fun w => set_modals ({[modalId]} ∪ modals w) w).

Definition hideModal : M unit := modify (set_modals ∅).

Definition quitGame : M unit := showModal "quit-modal".

Definition confirmQuit : M unit :=
  hideModal ;;
  showScreen "main-screen".

(** ** The event loop

    [fire h] runs the callback registered under handle [h], if it is still
    pending. A timeout is consumed by firing, the interval stays. *)
Definition fire (h : positive) : M unit :=
  let* t := gets (fun w => tasks w !! h) in
  match t with
  | None => ret tt
  | Some TTick => modify_gs (fun g => set_timer (timer g + 1) g)
  | Some (TFlipBack firstCard secondCard) =>
      modify (fun w => set_tasks (delete h (tasks w)) w) ;;
      flipBack firstCard secondCard
  | Some TShowWin =>
      modify (fun w => set_tasks (delete h (tasks w)) w) ;;
      showWinScreen
  | Some (TUnhint _) =>
      modify (fun w => set_tasks (delete h (tasks w)) w)
  end.

Inductive Event :=
| EStart (difficulty : string)
| EClick (cardId : Z)
| EHint
| ERestart (confirmed : bool)
| EQuit
| EConfirmQuit
| EHideModal
| EFire (h : positive).

Definition handle (e : Event) : M unit :=
  match e with
  | EStart d => startGame d
  | EClick i => handleCardClick i
  | EHint => hint
  | ERestart b => restartGame b
  | EQuit => quitGame
  | EConfirmQuit => confirmQuit
  | EHideModal => hideModal
  | EFire h => fire h
  end.

(** An uncaught exception ends its handler and the loop goes on. *)
Definition step (e : Event) (w : World) : World := snd (handle e w).

Definition run (es : list Event) (w : World) : World := foldl (fun w e => step e w) w es.

(** A random source for which the shuffle leaves every element in place:
    [floor (99/100 * (i + 1)) = i] for the [i < 30] of the game. *)
Definition rndLast : nat -> Sample := fun _ => {| s_num := 99; s_gap := 0 |}.

(** A random source that always draws index 0. *)
Definition rndZero : nat -> Sample := fun _ => {| s_num := 0; s_gap := 0 |}.

(** The deck as the page shows it: the card objects of [gameState.cards]. *)
Definition deck (w : World) : list Card := map (deref (cardObjs w)) (cards (gs w)).

(** ** Definitions used by the statements *)

(** The sequence an array holds after the loop ran from index [i] down to
    1, as a function of the sequence it held before; [k] is the number of
    draws already made. *)
Fixpoint shufflePure (rnd : nat -> Sample) (k i : nat) (xs : list string)
  : list string :=
  match i with
  | O => xs
  | S i' => shufflePure rnd (S k) i' (swapList xs i (floorMul (rnd k) (i + 1)))
  end.

Definition afterShuffle (a : loc) (ys : list string) (n : nat) (w : World)
  : World :=
  set_draws (draws w + n) (set_arrays (<[a := ys]> (arrays w)) w).

Definition presetConfig (p : Preset) : Config :=
  match p with
  | Easy => {| rows := 4; cols := 4; pairs := 8 |}
  | Medium => {| rows := 4; cols := 5; pairs := 10 |}
  | Hard => {| rows := 5; cols := 6; pairs := 15 |}
  end.

(** The symbols a deck is built from, and the shuffled sequence. *)
Definition selectedFlowers (c : Config) : list string :=
  slice0 flowers (Some (pairs c)).

Definition shuffledValues (c : Config) (w : World) : list string :=
  let sel := selectedFlowers c in
  shufflePure (random w) (draws w) (length (sel ++ sel) - 1) (sel ++ sel).

Definition afterCreate (c : Config) (w : World) : World :=
  let sel := selectedFlowers c in
  let ys := shuffledValues c w in
  {| gs := set_cards (seq (length (cardObjs w)) (length ys)) (gs w);
     cardObjs := cardObjs w ++ imap newCard ys;
     arrays := arrays w ++ [ys];
     tasks := tasks w; nextHandle := nextHandle w; screen := screen w;
     modals := modals w; random := random w;
     draws := draws w + (length (sel ++ sel) - 1); ui := ui w |}.

Definition afterStart (p : Preset) (w : World) : World :=
  let w1 := afterCreate (presetConfig p) (set_gs (freshState (presetName p)) w) in
  {| gs := set_timerInterval (Some (nextHandle w)) (gs w1);
     cardObjs := cardObjs w1; arrays := arrays w1;
     tasks := <[nextHandle w := TTick]> (tasks w);
     nextHandle := Pos.succ (nextHandle w);
     screen := "game-screen"; modals := modals w;
     random := random w; draws := draws w1; ui := ui w |}.

(** The score formula in the words of the specification. *)
Definition specDifficultyBonus (p : Preset) : Z :=
  match p with Easy => 100 | Medium => 200 | Hard => 300 end%Z.

Definition specScore (p : Preset) (elapsedSeconds moves : Z) : Z :=
  (Z.max 0 (300 - elapsedSeconds)
   + Z.max 0 (presetPairs p * 10 - moves)
   + specDifficultyBonus p)%Z.

(** Eight matching pairs of the unshuffled easy deck, after ten ticks of
    the timer (handle 1); the win callback has handle 2. *)
Definition easyWinTrace : list Event :=
  [EStart "easy"]
  ++ repeat (EFire 1) 10
  ++ flat_map (fun i => [EClick i; EClick (i + 8)]) [0; 1; 2; 3; 4; 5; 6; 7]%Z
  ++ [EFire 2].

(** The cards a hint may point at: face down and not matched. *)
Definition hintable (c : Card) : bool := negb (matched c) && negb (flipped c).

Definition candidates (w : World) : list Card :=
  unmatchedCardsOf (cardObjs w) (cards (gs w)).

(** The ids of the cards of [U] that carry symbol [k], in the order of [U]. *)
Definition idsOf (k : string) (U : list Card) : list Z :=
  map id (List.filter (fun c => String.eqb k (value c)) U).

(** The hint pair in the words of the specification: the first candidate
    that has a later candidate of the same symbol, together with the
    first such later candidate. *)
Fixpoint specHintPair (U : list Card) : option (list Z) :=
  match U with
  | [] => None
  | c :: U' =>
      match idsOf (value c) U' with
      | j :: _ => Some [id c; j]
      | [] => specHintPair U'
      end
  end.

(** Every card of the deck carries its grid position as id. *)
Definition ids_are_positions (w : World) : Prop :=
  map id (deck w) = map Z.of_nat (seq 0 (length (deck w))).

(** Every card of the deck carries a symbol of the alphabet. The grouping
    of [hint] is modelled for such symbols only: they are neither array
    indices nor names of inherited properties. *)
Definition symbols_from_alphabet (w : World) : Prop :=
  Forall (fun c => value c ∈ flowers) (deck w).

(** What never changes on a card of the deck: its id and its symbol. *)
Definition faces (w : World) : list (Z * string) :=
  map (fun c => (id c, value c)) (deck w).

(** Ids that increase along the list. *)
Definition ascending (U : list Card) : Prop :=
  forall i j ci cj, i < j -> U !! i = Some ci -> U !! j = Some cj ->
                    (id ci < id cj)%Z.

(** The world after a hint on the cards [a] and [b]. *)
Definition afterHint (a b : Z) (w : World) : World :=
  {| gs := set_hints (hints (gs w) - 1) (gs w);
     cardObjs := cardObjs w; arrays := arrays w;
     tasks := <[Pos.succ (nextHandle w) := TUnhint b]>
                (<[nextHandle w := TUnhint a]> (tasks w));
     nextHandle := Pos.succ (Pos.succ (nextHandle w));
     screen := screen w; modals := modals w; random := random w;
     draws := draws w; ui := (ui w ++ [UiHint a]) ++ [UiHint b] |}.

Definition startsSession (e : Event) : bool :=
  match e with
  | EStart _ => true
  | ERestart confirmed => confirmed
  | _ => false
  end.

(** A call of [hint] is successful when it returns normally and has
    highlighted cards. *)
Definition hintGiven (w : World) : bool :=
  match hint w with
  | (Done _, w') => negb (length (ui w') =? length (ui w))
  | (Threw _, _) => false
  end.

Definition isHint (e : Event) : bool :=
  match e with EHint => true | _ => false end.

(** The number of successful calls of [hint] along a trace. *)
Fixpoint hintsGiven (es : list Event) (w : World) : nat :=
  match es with
  | [] => 0
  | e :: es' =>
      (if isHint e && hintGiven w then 1 else 0) + hintsGiven es' (step e w)
  end.

Definition afterHighlight (a : Z) (w : World) : World :=
  set_nextHandle (Pos.succ (nextHandle w))
    (set_tasks (<[nextHandle w := TUnhint a]> (tasks w))
       (set_ui (ui w ++ [UiHint a]) w)).

(** A card of the deck that lies face down and is not matched. *)
Definition faceDownUnmatched (w : World) (c : Card) : Prop :=
  c ∈ deck w /\ matched c = false /\ flipped c = false.

(** Six pairs of the unshuffled easy deck are matched, then cards 6 and 7
    are turned: they differ and wait for their flip back. *)
Definition pendingMismatchTrace : list Event :=
  [EStart "easy"]
  ++ flat_map (fun i => [EClick i; EClick (i + 8)]) [0; 1; 2; 3; 4; 5]%Z
  ++ [EClick 6; EClick 7].

(** All eight pairs of the unshuffled easy deck, matched in order. *)
Definition allPairsTrace : list Event :=
  [EStart "easy"]
  ++ flat_map (fun i => [EClick i; EClick (i + 8)]) [0; 1; 2; 3; 4; 5; 6; 7]%Z.

(** A mismatch is pending in the first session when the player restarts
    and turns card 0 of the new deck. *)
Definition oldSession : World :=
  run [EStart "easy"; EClick 0; EClick 1] (initialWorld rndLast).

Definition newSession : World := run [ERestart true; EClick 0] oldSession.

(** The same world with another random source. *)
Definition set_random (rnd : nat -> Sample) (w : World) : World :=
  {| gs := gs w; cardObjs := cardObjs w; arrays := arrays w; tasks := tasks w;
     nextHandle := nextHandle w; screen := screen w; modals := modals w;
     random := rnd; draws := draws w; ui := ui w |}.

(** The result of [Math.random()] that makes the step at index [i] draw
    the index [j]: the rational [j / (i + 1)]. *)
Definition sampleFor (j i : nat) : Sample := {| s_num := j; s_gap := i - j |}.

(** What [config.pairs] evaluates to once [config] is not [undefined]. *)
Definition configPairs (config : JsConfig) : option Z :=
  match config with
  | CfgPreset c => Some (pairs c)
  | _ => None
  end.

(** The world left by [createCards] when it deals from the first [p]
    symbols ([None]: from all of them). *)
Definition afterDeal (p : option Z) (w : World) : World :=
  let sel := slice0 flowers p in
  let ys := shufflePure (random w) (draws w) (length (sel ++ sel) - 1)
                        (sel ++ sel) in
  {| gs := set_cards (seq (length (cardObjs w)) (length ys)) (gs w);
     cardObjs := cardObjs w ++ imap newCard ys;
     arrays := arrays w ++ [ys];
     tasks := tasks w; nextHandle := nextHandle w; screen := screen w;
     modals := modals w; random := random w;
     draws := draws w + (length (sel ++ sel) - 1); ui := ui w |}.

(** The world left by [startGame] when the name is found. *)
Definition afterStartOf (d : string) (w : World) : World :=
  let w1 := afterDeal (configPairs (lookupDifficulty d))
                      (set_gs (freshState d) w) in
  {| gs := set_timerInterval (Some (nextHandle w)) (gs w1);
     cardObjs := cardObjs w1; arrays := arrays w1;
     tasks := <[nextHandle w := TTick]> (tasks w);
     nextHandle := Pos.succ (nextHandle w);
     screen := "game-screen"; modals := modals w;
     random := random w; draws := draws w1; ui := ui w |}.

(** The interval [h] is running, was issued in the past, and is not the
    one recorded in [gameState]. *)
Definition orphaned (h : positive) (w : World) : Prop :=
  tasks w !! h = Some TTick /\
  (h < nextHandle w)%positive /\
  timerInterval (gs w) <> Some h.

(** A click on [cardId] turns a card: the game is active, the id is an
    index of the deck, the card lies face down and unmatched, and fewer
    than two cards are revealed. *)
Definition revealable (w : World) (cardId : Z) : bool :=
  gameActive (gs w)
  && match nthZ (cards (gs w)) cardId with
     | Some l => negb (flipped (deref (cardObjs w) l))
                 && negb (matched (deref (cardObjs w) l))
     | None => false
     end
  && (length (flippedCards (gs w)) <? 2).

(** A click on [cardId] turns the second card of an attempt. *)
Definition completesPair (w : World) (cardId : Z) : bool :=
  revealable w cardId && (length (flippedCards (gs w)) =? 1).

(** Lines 328-336: the handler of the back button. *)
Definition onPopState : M unit :=
  let* s := gets screen in
  let* g := gets gs in
  if String.eqb s "game-screen" && gameActive g
  then quitGame
  else showScreen "main-screen".

(** The number of matched cards of the deck. *)
Definition matchedCount (w : World) : nat :=
  length (List.filter matched (deck w)).

(** The state of a game as the rules mean it: the deck holds distinct,
    existing card objects; a matched card lies face up; [flippedCards]
    lists, without repetition, exactly the positions of the cards that lie
    face up unmatched; a pending flip-back is the only one and is for the
    two cards listed in [flippedCards]; and the matched cards are twice
    the matched pairs. *)
Definition consistent (w : World) : Prop :=
  NoDup (cards (gs w)) /\
  Forall (fun l => l < length (cardObjs w)) (cards (gs w)) /\
  (forall l, l ∈ cards (gs w) ->
     matched (deref (cardObjs w) l) = true ->
     flipped (deref (cardObjs w) l) = true) /\
  (forall i, i ∈ flippedCards (gs w) <->
     exists l, nthZ (cards (gs w)) i = Some l /\
               flipped (deref (cardObjs w) l) = true /\
               matched (deref (cardObjs w) l) = false) /\
  NoDup (flippedCards (gs w)) /\
  (forall h la lb,
     tasks w !! h = Some (TFlipBack la lb) ->
     exists a b, flippedCards (gs w) = [a; b] /\
                 nthZ (cards (gs w)) a = Some la /\
                 nthZ (cards (gs w)) b = Some lb) /\
  (forall h h' la lb la' lb',
     tasks w !! h = Some (TFlipBack la lb) ->
     tasks w !! h' = Some (TFlipBack la' lb') -> h = h') /\
  Z.of_nat (matchedCount w) = (2 * matchedPairs (gs w))%Z.

(** No flip-back is waiting. *)
Definition noFlipBackPending (w : World) : Prop :=
  forall h la lb, tasks w !! h <> Some (TFlipBack la lb).

(** The world [w] with another game state, card store, set of callbacks
    and next handle. *)
Definition withGame (g : GameState) (co : list Card)
    (t : gmap positive Task) (n : positive) (w : World) : World :=
  {| gs := g; cardObjs := co; arrays := arrays w; tasks := t;
     nextHandle := n; screen := screen w; modals := modals w;
     random := random w; draws := draws w; ui := ui w |}.

(** ** The moves of a game, on the unshuffled easy deck

    Cards [i] and [i + 8] carry the same symbol. *)

Example select_same_card_twice :
  let w := run [EStart "easy"; EClick 0] (initialWorld rndLast) in
  flippedCards (gs w) = [0%Z] /\
  handleCardClick 0 w = (Done tt, w).
Proof. by vm_compute. Qed.

Example select_matching_pair :
  let w := run [EStart "easy"; EClick 0; EClick 8] (initialWorld rndLast) in
  map matched (deck w) !! 0 = Some true /\
  map matched (deck w) !! 8 = Some true /\
  matchedPairs (gs w) = 1%Z /\ moveCount (gs w) = 1%Z /\
  flippedCards (gs w) = [].
Proof. by vm_compute. Qed.

Example select_mismatching_pair :
  let w := run [EStart "easy"; EClick 0; EClick 1] (initialWorld rndLast) in
  map flipped (deck w) = [true; true] ++ repeat false 14 /\
  flippedCards (gs w) = [0; 1]%Z /\ moveCount (gs w) = 1%Z /\
  tasks w !! 2%positive = Some (TFlipBack 0 1) /\
  handleCardClick 2 w = (Done tt, w) /\
  map flipped (deck (step (EFire 2) w)) = repeat false 16 /\
  flippedCards (gs (step (EFire 2) w)) = [] /\
  moveCount (gs (step (EFire 2) w)) = 1%Z /\
  tasks (step (EFire 2) w) !! 2%positive = None.
Proof. by vm_compute. Qed.

(** ** Properties of the shuffle *)

Lemma floorMul_le r i : floorMul r (i + 1) <= i.
Proof.
  unfold floorMul.
  assert (H : s_num r * (i + 1) < (s_num r + s_gap r + 1) * (i + 1)).
  { apply Nat.mul_lt_mono_pos_r; lia. }
  apply Nat.Div0.div_lt_upper_bound in H. lia.
Qed.

Lemma replace_one_perm (l : list string) k y a :
  l !! k = Some y -> y :: <[k := a]> l ≡ₚ a :: l.
Proof.
  revert k. induction l as [|b l IH]; intros [|k] H; simplify_eq/=.
  - apply perm_swap.
  - rewrite perm_swap. rewrite (IH _ H). apply perm_swap.
Qed.

Lemma swapList_perm xs i j : swapList xs i j ≡ₚ xs.
Proof.
  unfold swapList.
  destruct (xs !! i) as [x|] eqn:Hi; [|done].
  destruct (xs !! j) as [y|] eqn:Hj; [|done].
  revert i j Hi Hj.
  induction xs as [|a xs IH]; intros [|i] [|j] Hi Hj; simplify_eq/=.
  - done.
  - by apply replace_one_perm.
  - by apply replace_one_perm.
  - by rewrite IH.
Qed.

(** In the loop both indices are inside the array, so [swapList] always
    performs the two writes. *)
Lemma swapList_in_loop xs i r :
  i < length xs ->
  exists x y,
    xs !! i = Some x /\ xs !! floorMul r (i + 1) = Some y /\
    swapList xs i (floorMul r (i + 1))
    = <[floorMul r (i + 1) := x]> (<[i := y]> xs).
Proof.
  intros Hi. pose proof (floorMul_le r i) as Hj.
  destruct (lookup_lt_is_Some_2 xs i Hi) as [x Hx].
  destruct (lookup_lt_is_Some_2 xs (floorMul r (i + 1))) as [y Hy]; [lia|].
  exists x, y. unfold swapList. by rewrite Hx, Hy.
Qed.

Lemma swapList_length xs i j : length (swapList xs i j) = length xs.
Proof.
  unfold swapList. destruct (xs !! i), (xs !! j); rewrite ?length_insert; done.
Qed.

Lemma shufflePure_perm rnd k i xs : shufflePure rnd k i xs ≡ₚ xs.
Proof.
  revert k xs. induction i as [|i IH]; intros k xs; simpl; [done|].
  rewrite IH. apply swapList_perm.
Qed.

Lemma shufflePure_length rnd k i xs : length (shufflePure rnd k i xs) = length xs.
Proof. apply Permutation_length, shufflePure_perm. Qed.

Lemma shuffleLoop_spec a i w xs :
  arrays w !! a = Some xs ->
  shuffleLoop a i w
  = (Done tt, afterShuffle a (shufflePure (random w) (draws w) i xs) i w).
Proof.
  revert w xs. induction i as [|i IH]; intros w xs Ha.
  - cbn. unfold afterShuffle, set_draws, set_arrays. destruct w; simpl in *.
    rewrite list_insert_id by done. by rewrite Nat.add_0_r.
  - cbn [shuffleLoop]. unfold bind, mathRandom, swapAt, modify.
    cbn [set_draws arrays random draws]. rewrite Ha.
    erewrite IH; last first.
    { cbn. apply list_lookup_insert_eq. by eapply lookup_lt_Some. }
    unfold afterShuffle, set_draws, set_arrays. cbn.
    rewrite list_insert_insert_eq. do 3 f_equal. lia.
Qed.

Lemma shuffleArray_spec a w xs :
  arrays w !! a = Some xs ->
  shuffleArray a w
  = (Done a,
     afterShuffle a (shufflePure (random w) (draws w) (length xs - 1) xs)
       (length xs - 1) w).
Proof.
  intros Ha. unfold shuffleArray, bind, arrayLength, gets. rewrite Ha. cbn.
  by rewrite (shuffleLoop_spec _ _ _ _ Ha).
Qed.

(** ** Properties of deck creation *)

Lemma lookupDifficulty_preset p :
  lookupDifficulty (presetName p) = CfgPreset (presetConfig p).
Proof. by destruct p; vm_compute. Qed.

Lemma pairs_presetConfig p : pairs (presetConfig p) = presetPairs p.
Proof. by destruct p. Qed.

Arguments lookupDifficulty : simpl never.

Lemma createCards_preset c w :
  createCards (CfgPreset c) w = (Done tt, afterCreate c w).
Proof.
  unfold createCards, bind, readProp, ret, allocArray.
  fold (selectedFlowers c). set (sel := selectedFlowers c).
  erewrite shuffleArray_spec; last first.
  { cbn. by apply list_lookup_middle. }
  unfold readArray, gets, afterShuffle. cbn.
  rewrite list_lookup_insert_eq by (rewrite length_app; simpl; lia).
  cbn. unfold afterCreate, shuffledValues. fold sel.
  rewrite insert_app_r_alt, Nat.sub_diag by lia. cbn.
  reflexivity.
Qed.

Lemma startGame_preset p w :
  startGame (presetName p) w = (Done tt, afterStart p w).
Proof.
  unfold startGame, bind, modify_gs, modify. cbn.
  rewrite lookupDifficulty_preset, createCards_preset.
  unfold updateScore, bind, gets. cbn.
  rewrite lookupDifficulty_preset. cbn.
  reflexivity.
Qed.

Lemma deref_fresh h (l : list Card) :
  map (deref (h ++ l)) (seq (length h) (length l)) = l.
Proof.
  apply list_eq; intros i. rewrite list_lookup_fmap.
  destruct (decide (i < length l)) as [Hlt|Hge].
  - rewrite lookup_seq_lt by done. cbn. unfold deref.
    rewrite lookup_app_r by lia.
    replace (length h + i - length h) with i by lia.
    destruct (lookup_lt_is_Some_2 l i Hlt) as [x Hx]. by rewrite Hx.
  - rewrite lookup_seq_ge by lia. cbn. symmetry. apply lookup_ge_None_2. lia.
Qed.

Lemma deck_afterStart p w :
  deck (afterStart p w)
  = imap newCard (shuffledValues (presetConfig p)
                    (set_gs (freshState (presetName p)) w)).
Proof.
  unfold deck, afterStart, afterCreate.
  set (ys := shuffledValues _ _).
  cbn [gs cardObjs cards set_gs set_cards set_timerInterval].
  rewrite <- (length_imap newCard ys). apply deref_fresh.
Qed.

Lemma shuffledValues_perm c w :
  shuffledValues c w ≡ₚ selectedFlowers c ++ selectedFlowers c.
Proof. apply shufflePure_perm. Qed.

Lemma map_value_imap_newCard ys : map value (imap newCard ys) = ys.
Proof.
  apply list_eq; intros i.
  rewrite list_lookup_fmap, list_lookup_imap. by destruct (ys !! i).
Qed.

Lemma selectedFlowers_preset p :
  selectedFlowers (presetConfig p) = take (Z.to_nat (presetPairs p)) flowers.
Proof. by destruct p. Qed.

Lemma flowers_NoDup : NoDup flowers.
Proof. apply (bool_decide_unpack (NoDup flowers)). by vm_compute. Qed.

(** C7. For every preset, [startGame] returns normally and leaves a deck of
    [2 * pairs] cards whose ids are their grid positions, built from
    exactly [pairs] distinct symbols of the alphabet, each of them carried
    by exactly two cards. *)
Theorem startGame_deck_pairs (p : Preset) (w : World) :
  let r := startGame (presetName p) w in
  let d := deck (snd r) in
  pairs <$> difficulties !! presetName p = Some (presetPairs p) /\
  fst r = Done tt /\
  Z.of_nat (length d) = (2 * presetPairs p)%Z /\
  (forall i c, d !! i = Some c -> id c = Z.of_nat i) /\
  exists syms : list string,
    NoDup syms /\
    Z.of_nat (length syms) = presetPairs p /\
    syms ⊆ flowers /\
    (forall c, c ∈ d -> value c ∈ syms) /\
    (forall s, s ∈ syms -> count_occ string_dec (map value d) s = 2).
Proof.
  cbn zeta. rewrite startGame_preset. cbn [fst snd].
  rewrite deck_afterStart.
  set (ys := shuffledValues _ _).
  assert (Hperm : ys ≡ₚ selectedFlowers (presetConfig p)
                        ++ selectedFlowers (presetConfig p))
    by apply shuffledValues_perm.
  rewrite selectedFlowers_preset in Hperm.
  set (syms := take (Z.to_nat (presetPairs p)) flowers) in *.
  assert (Hlen : Z.of_nat (length syms) = presetPairs p)
    by (by destruct p; vm_compute).
  assert (Hnd : NoDup syms).
  { unfold syms. eapply sublist_NoDup; [apply flowers_NoDup|].
    apply sublist_take. }
  split; [by destruct p; vm_compute|].
  split; [done|].
  split.
  { rewrite length_imap, (Permutation_length Hperm), length_app. lia. }
  split.
  { intros i c. rewrite list_lookup_imap.
    destruct (ys !! i); intros; simplify_eq/=; done. }
  exists syms. repeat split; [done|done|apply subseteq_take| |].
  - intros c Hc.
    assert (Hv : value c ∈ map value (imap newCard ys))
      by (apply list_elem_of_fmap; eauto).
    rewrite map_value_imap_newCard, Hperm in Hv.
    apply elem_of_app in Hv. tauto.
  - intros s Hs. rewrite map_value_imap_newCard.
    rewrite (proj1 (Permutation_count_occ string_dec _ _) Hperm s).
    rewrite count_occ_app.
    apply NoDup_ListNoDup in Hnd.
    rewrite (proj1 (NoDup_count_occ' string_dec syms) Hnd s); [done|].
    by apply list_elem_of_In.
Qed.

(** ** Shuffling in place *)

(** C9, as stated, fails: the array handed to [shuffleArray] is the one
    that gets reordered, and the reference returned is the one received. *)
Lemma shuffleArray_mutates_its_input :
  let w := set_arrays [["a"; "b"]] (initialWorld rndZero) in
  arrays w !! 0 = Some ["a"; "b"] /\
  fst (shuffleArray 0 w) = Done 0 /\
  arrays (snd (shuffleArray 0 w)) !! 0 = Some ["b"; "a"] /\
  length (arrays (snd (shuffleArray 0 w))) = length (arrays w).
Proof. by vm_compute. Qed.

(** C9, amended. [shuffleArray] reorders the array it is given in place:
    it returns the reference it received, the array then holds a
    permutation of what it held before, no array is created, and nothing
    else changes but the number of random draws consumed. *)
Theorem shuffleArray_permutes_in_place (w : World) (a : loc) (xs : list string) :
  arrays w !! a = Some xs ->
  let r := shuffleArray a w in
  let w' := snd r in
  fst r = Done a /\
  (exists ys, arrays w' !! a = Some ys /\ ys ≡ₚ xs) /\
  (forall b, b <> a -> arrays w' !! b = arrays w !! b) /\
  length (arrays w') = length (arrays w) /\
  draws w' = draws w + (length xs - 1) /\
  gs w' = gs w /\ cardObjs w' = cardObjs w /\ tasks w' = tasks w /\
  ui w' = ui w.
Proof.
  intros Ha. cbn zeta. rewrite (shuffleArray_spec _ _ _ Ha). cbn.
  split; [done|]. split.
  { eexists. split; [|apply shufflePure_perm].
    apply list_lookup_insert_eq. by eapply lookup_lt_Some. }
  split; [intros b Hb; by apply list_lookup_insert_ne|].
  by rewrite length_insert.
Qed.

Lemma shuffleArray_permutes_in_place_witness :
  let w := set_arrays [["a"; "b"; "c"]] (initialWorld rndZero) in
  arrays w !! 0 = Some ["a"; "b"; "c"] /\
  exists ys, arrays (snd (shuffleArray 0 w)) !! 0 = Some ys /\
             ys ≡ₚ ["a"; "b"; "c"].
Proof.
  cbn zeta. split; [reflexivity|].
  apply (shuffleArray_permutes_in_place
           (set_arrays [["a"; "b"; "c"]] (initialWorld rndZero)) 0
           ["a"; "b"; "c"]).
  reflexivity.
Defined.

(** ** Score *)

Lemma difficultyBonus_preset p :
  difficultyBonus (presetName p) = Some (specDifficultyBonus p).
Proof. by destruct p; vm_compute. Qed.

Arguments difficultyBonus : simpl never.

(** C6. The score shown by [showWinScreen] is
    [max(0, 300 - timer) + max(0, pairs * 10 - moveCount) + bonus] with the
    bonus 100, 200, 300 of the difficulty, in integer arithmetic; an easy
    game won after 10 seconds and 8 moves shows 462. *)
Theorem showWinScreen_score (w : World) (p : Preset) :
  currentDifficulty (gs w) = presetName p ->
  let r := showWinScreen w in
  fst r = Done tt /\
  ui (snd r)
  = ui w ++ [UiWin (timer (gs w)) (moveCount (gs w))
               (Some (specScore p (timer (gs w)) (moveCount (gs w))))] /\
  specScore Easy 10 8 = 462%Z /\
  ui (run easyWinTrace (initialWorld rndLast)) = [UiWin 10 8 (Some 462%Z)].
Proof.
  intros Hd. cbn zeta.
  assert (Hgen : fst (showWinScreen w) = Done tt /\
    ui (snd (showWinScreen w))
    = ui w ++ [UiWin (timer (gs w)) (moveCount (gs w))
                 (Some (specScore p (timer (gs w)) (moveCount (gs w))))]).
  { unfold showWinScreen, bind, gets, modify_gs, modify, logUi.
    unfold totalScore, moveBonus, timeBonus.
    destruct (timerInterval (gs w)) as [h|] eqn:Ht; cbn;
      rewrite Hd, lookupDifficulty_preset; cbn;
      rewrite ?Ht, ?Hd, difficultyBonus_preset, pairs_presetConfig; cbn;
      done. }
  destruct Hgen as [H1 H2].
  split; [exact H1|]. split; [exact H2|]. split; by vm_compute.
Qed.

Lemma showWinScreen_score_witness :
  ui (snd (showWinScreen
             (set_gs (set_moveCount 8 (set_timer 10 (freshState "easy")))
                (initialWorld rndLast))))
  = [UiWin 10 8 (Some 462%Z)].
Proof.
  exact (proj1 (proj2 (showWinScreen_score
    (set_gs (set_moveCount 8 (set_timer 10 (freshState "easy")))
       (initialWorld rndLast)) Easy eq_refl))).
Defined.

(** ** Quitting *)

(** C3, as stated, fails: after quitting a running game the timer is
    stopped but [gameActive] is still [true]. *)
Lemma quit_leaves_gameActive :
  let w := run [EStart "easy"; EQuit; EConfirmQuit] (initialWorld rndLast) in
  gameActive (gs w) = true /\
  timerInterval (gs w) = None /\ tasks w = ∅.
Proof. by vm_compute. Qed.

(** C3, amended. [quitGame] only opens the confirmation modal;
    [confirmQuit] stops the timer (the interval is cleared and
    [timerInterval] reset) and shows the main screen. The cards,
    [matchedPairs] and [moveCount] are unaltered, and so is [gameActive]. *)
Theorem confirmQuit_stops_timer_only (w : World) :
  quitGame w = (Done tt, set_modals ({["quit-modal"]} ∪ modals w) w) /\
  let r := confirmQuit w in
  let w' := snd r in
  fst r = Done tt /\
  gs w' = set_timerInterval None (gs w) /\
  tasks w' = match timerInterval (gs w) with
             | Some h => delete h (tasks w)
             | None => tasks w
             end /\
  cards (gs w') = cards (gs w) /\
  cardObjs w' = cardObjs w /\
  matchedPairs (gs w') = matchedPairs (gs w) /\
  moveCount (gs w') = moveCount (gs w) /\
  gameActive (gs w') = gameActive (gs w) /\
  screen w' = "main-screen" /\ modals w' = ∅.
Proof.
  split; [done|]. cbn zeta.
  unfold confirmQuit, hideModal, showScreen, bind, modify, gets, modify_gs.
  destruct w as [[cs fc mp mc ga tm [h|] cd hn] co ar tk nh sc mo rn dr u];
    cbn; done.
Qed.

(** ** Misuse of the commands *)

(** C4, as stated, fails: selecting an id past the end of the deck of a
    running game throws. *)
Lemma click_past_the_deck_throws :
  let w := run [EStart "easy"] (initialWorld rndLast) in
  length (cards (gs w)) = 16 /\
  gameActive (gs w) = true /\
  fst (handleCardClick 16 w) = Threw TypeError.
Proof. by vm_compute. Qed.

(** C4, amended. While the game is active, selecting an id that is not an
    index of [cards] throws a [TypeError] before anything is mutated: the
    exception is the only effect of the call. *)
Theorem handleCardClick_out_of_range (w : World) (cardId : Z) :
  gameActive (gs w) = true ->
  (cardId < 0 \/ Z.of_nat (length (cards (gs w))) <= cardId)%Z ->
  handleCardClick cardId w = (Threw TypeError, w).
Proof.
  intros Hact Hrange.
  unfold handleCardClick, bind, gets, cardAt. rewrite Hact. cbn.
  unfold nthZ. destruct (0 <=? cardId)%Z eqn:Hs.
  - rewrite lookup_ge_None_2 by lia. done.
  - done.
Qed.

Lemma handleCardClick_out_of_range_witness :
  handleCardClick (-1) (run [EStart "easy"] (initialWorld rndLast))
  = (Threw TypeError, run [EStart "easy"] (initialWorld rndLast)).
Proof.
  apply handleCardClick_out_of_range; [reflexivity | left; reflexivity].
Defined.

(** C5, as stated, fails. The name ["toString"] is not a preset, yet
    [startGame] completes: the lookup finds an inherited property, whose
    [pairs] is [undefined], and a deck of all 15 symbols is dealt. For a
    name that is found nowhere the call does fail, with the [TypeError] of
    reading [config.cols], once the session has been replaced. *)
Lemma inherited_name_is_not_rejected :
  let w0 := initialWorld rndLast in
  fst (startGame "toString" w0) = Done tt /\
  length (cards (gs (snd (startGame "toString" w0)))) = 30 /\
  fst (startGame "expert" w0) = Threw TypeError /\
  gameActive (gs w0) = false /\
  gameActive (gs (snd (startGame "expert" w0))) = true.
Proof. by vm_compute. Qed.

Lemma difficulties_unknown d :
  d ∉ ["easy"; "medium"; "hard"] -> difficulties !! d = None.
Proof.
  intros Hd. unfold difficulties.
  rewrite !lookup_insert_ne; [apply lookup_empty| | |];
    intros <-; apply Hd; set_solver.
Qed.

(** C5, amended. For every name that is neither a preset nor a property
    inherited from [Object.prototype], [startGame] throws a [TypeError]
    (the script has no error of its own); by then the session has been
    replaced by a fresh, active one without cards, and nothing else has
    happened: no deck is dealt and no timer is started. *)
Theorem startGame_unknown_name (w : World) (d : string) :
  d ∉ ["easy"; "medium"; "hard"] ->
  d ∉ objectPrototypeKeys ->
  startGame d w = (Threw TypeError, set_gs (freshState d) w).
Proof.
  intros Hd Hp.
  assert (Hl : lookupDifficulty d = CfgUndefined).
  { unfold lookupDifficulty. rewrite (difficulties_unknown _ Hd).
    by rewrite bool_decide_eq_false_2. }
  unfold startGame, bind, modify_gs, modify. cbn.
  rewrite Hl. done.
Qed.

Lemma startGame_unknown_name_witness :
  startGame "expert" (initialWorld rndLast)
  = (Threw TypeError, set_gs (freshState "expert") (initialWorld rndLast)).
Proof.
  apply startGame_unknown_name.
  - apply (bool_decide_unpack ("expert" ∉ ["easy"; "medium"; "hard"])).
    vm_compute. exact I.
  - apply (bool_decide_unpack ("expert" ∉ objectPrototypeKeys)).
    vm_compute. exact I.
Defined.

(** ** Hints *)

Lemma ids_at w i c :
  ids_are_positions w -> deck w !! i = Some c -> id c = Z.of_nat i.
Proof.
  intros Hpos Hi.
  assert (H : map id (deck w) !! i = Some (id c))
    by (by rewrite list_lookup_fmap, Hi).
  rewrite Hpos, list_lookup_fmap in H.
  rewrite lookup_seq_lt in H by (by eapply lookup_lt_Some).
  by simplify_eq/=.
Qed.

Lemma foldl_groupPush_cons k ids G U :
  foldl groupPush ((k, ids) :: G) U
  = (k, ids ++ idsOf k U)
      :: foldl groupPush G
           (List.filter (fun c => negb (String.eqb k (value c))) U).
Proof.
  revert ids G. induction U as [|c U IH]; intros ids G.
  - cbn. by rewrite app_nil_r.
  - cbn [foldl groupPush]. unfold idsOf. cbn [List.filter].
    destruct (String.eqb k (value c)) eqn:E; cbn [negb map].
    + rewrite IH. unfold idsOf. by rewrite <- app_assoc.
    + rewrite IH. done.
Qed.

Lemma idsOf_nil_filter k U :
  idsOf k U = [] ->
  List.filter (fun c => negb (String.eqb k (value c))) U = U.
Proof.
  unfold idsOf. induction U as [|c U IH]; cbn; [done|].
  destruct (String.eqb k (value c)); cbn; [done|].
  intros H. by rewrite IH.
Qed.

Lemma findHintPair_flowerGroupsOf U :
  findHintPair (flowerGroupsOf U) = specHintPair U.
Proof.
  unfold flowerGroupsOf. induction U as [|c U IH]; [done|].
  cbn [foldl groupPush specHintPair].
  rewrite foldl_groupPush_cons. unfold findHintPair. cbn [List.find snd].
  destruct (idsOf (value c) U) as [|j rest] eqn:E.
  - cbn. rewrite (idsOf_nil_filter _ _ E). apply IH.
  - done.
Qed.

Lemma elem_of_idsOf k U x :
  x ∈ idsOf k U <-> exists c, c ∈ U /\ value c = k /\ id c = x.
Proof.
  unfold idsOf. rewrite list_elem_of_fmap. split.
  - intros (c & -> & Hc). apply list_elem_of_In, filter_In in Hc.
    destruct Hc as [Hin Hk]. apply String.eqb_eq in Hk.
    exists c. by rewrite list_elem_of_In.
  - intros (c & Hin & Hk & <-). exists c. split; [done|].
    apply list_elem_of_In, filter_In. rewrite <- list_elem_of_In.
    split; [done|]. by apply String.eqb_eq.
Qed.

Lemma ascending_cons c U :
  ascending (c :: U) ->
  ascending U /\ forall c', c' ∈ U -> (id c < id c')%Z.
Proof.
  intros H. split.
  - intros i j ci cj Hij Hi Hj. apply (H (S i) (S j)); [lia|done|done].
  - intros c' Hc'. apply list_elem_of_lookup in Hc' as [j Hj].
    apply (H 0 (S j)); [lia|done|done].
Qed.

Lemma idsOf_head_least k U j rest :
  ascending U -> idsOf k U = j :: rest ->
  (exists cb, cb ∈ U /\ value cb = k /\ id cb = j) /\
  forall c, c ∈ U -> value c = k -> (j <= id c)%Z.
Proof.
  intros Hasc E. split.
  { apply elem_of_idsOf. rewrite E. left. }
  revert j rest Hasc E. unfold idsOf.
  induction U as [|c0 U IH]; intros j rest Hasc E; [done|].
  apply ascending_cons in Hasc as [Hasc Hlt].
  cbn [List.filter] in E. intros c Hc Hk.
  destruct (String.eqb k (value c0)) eqn:E0.
  - cbn in E. simplify_eq. apply elem_of_cons in Hc as [->|Hc]; [lia|].
    specialize (Hlt _ Hc). lia.
  - apply elem_of_cons in Hc as [->|Hc].
    + apply String.eqb_neq in E0. congruence.
    + by eapply IH.
Qed.

Lemma specHintPair_sound U l :
  ascending U -> specHintPair U = Some l ->
  exists ca cb,
    l = [id ca; id cb] /\ ca ∈ U /\ cb ∈ U /\ (id ca < id cb)%Z /\
    value ca = value cb /\
    (forall c, c ∈ U -> value c = value ca ->
               id c = id ca \/ (id cb <= id c)%Z) /\
    (forall c c', c ∈ U -> c' ∈ U -> value c = value c' ->
                  (id c < id c')%Z -> (id ca <= id c)%Z).
Proof.
  induction U as [|c0 U IH]; intros Hasc E; [done|].
  apply ascending_cons in Hasc as [Hasc Hlt].
  cbn [specHintPair] in E.
  destruct (idsOf (value c0) U) as [|j rest] eqn:Eids.
  - destruct (IH Hasc E) as (ca & cb & -> & Ha & Hb & Hab & Hv & H2 & H3).
    assert (Hfresh : forall c, c ∈ U -> value c <> value c0).
    { intros c Hc Hvc.
      assert (Hin : id c ∈ idsOf (value c0) U)
        by (apply elem_of_idsOf; eauto).
      rewrite Eids in Hin. by apply not_elem_of_nil in Hin. }
    exists ca, cb. repeat split; [by right|by right|done|done| |].
    + intros c [->|Hc]%elem_of_cons Hvc; [|by apply H2].
      exfalso. by apply (Hfresh ca).
    + intros c c' [->|Hc]%elem_of_cons [->|Hc']%elem_of_cons Hvc Hid.
      * lia.
      * exfalso. by apply (Hfresh c').
      * specialize (Hlt _ Hc). lia.
      * by eapply H3.
  - simplify_eq.
    destruct (idsOf_head_least _ _ _ _ Hasc Eids) as [(cb & Hb & Hv & <-) Hmin].
    exists c0, cb. repeat split; [by left|by right|by apply Hlt|done| |].
    + intros c [->|Hc]%elem_of_cons Hvc; [by left|right]. by apply Hmin.
    + intros c c' [->|Hc]%elem_of_cons _ _ _; [lia|].
      specialize (Hlt _ Hc). lia.
Qed.

Lemma specHintPair_None U :
  NoDup (map value U) -> specHintPair U = None.
Proof.
  induction U as [|c U IH]; [done|].
  cbn [map specHintPair]. intros [Hnotin Hnd]%NoDup_cons.
  destruct (idsOf (value c) U) as [|j rest] eqn:E; [by apply IH|].
  exfalso. apply Hnotin.
  assert (Hj : j ∈ idsOf (value c) U) by (rewrite E; left).
  apply elem_of_idsOf in Hj as (c' & Hc' & Hv & _).
  rewrite <- Hv. apply list_elem_of_fmap. eauto.
Qed.

Lemma ascending_cons_2 c U :
  ascending U -> (forall c', c' ∈ U -> (id c < id c')%Z) -> ascending (c :: U).
Proof.
  intros Hasc Hlt [|i] [|j] ci cj Hij Hi Hj; simplify_eq/=; try lia.
  - apply Hlt. apply list_elem_of_lookup. eauto.
  - apply (Hasc i j); [lia|done|done].
Qed.

Lemma ascending_filter f U : ascending U -> ascending (List.filter f U).
Proof.
  induction U as [|c U IH]; [done|].
  intros [Hasc Hlt]%ascending_cons. cbn [List.filter].
  destruct (f c); [|by apply IH].
  apply ascending_cons_2; [by apply IH|].
  intros c' Hc'. apply Hlt.
  apply list_elem_of_In, filter_In in Hc' as [Hc' _]. by apply list_elem_of_In.
Qed.

Lemma candidates_filter w : candidates w = List.filter hintable (deck w).
Proof. reflexivity. Qed.

Lemma ascending_candidates w : ids_are_positions w -> ascending (candidates w).
Proof.
  intros Hpos. rewrite candidates_filter. apply ascending_filter.
  intros i j ci cj Hij Hi Hj.
  rewrite (ids_at _ _ _ Hpos Hi), (ids_at _ _ _ Hpos Hj). lia.
Qed.

Lemma elem_of_candidates w c :
  c ∈ candidates w <-> c ∈ deck w /\ matched c = false /\ flipped c = false.
Proof.
  rewrite candidates_filter, !list_elem_of_In, filter_In. unfold hintable.
  destruct (matched c), (flipped c); cbn; intuition congruence.
Qed.

Lemma candidate_id_valid w c :
  ids_are_positions w -> c ∈ candidates w ->
  is_Some (nthZ (cards (gs w)) (id c)).
Proof.
  intros Hpos [Hc _]%elem_of_candidates.
  apply list_elem_of_lookup in Hc as [i Hi].
  rewrite (ids_at _ _ _ Hpos Hi). unfold nthZ.
  rewrite (proj2 (Z.leb_le 0 (Z.of_nat i))) by lia. rewrite Nat2Z.id.
  apply lookup_lt_is_Some_2.
  apply lookup_lt_Some in Hi. unfold deck in Hi. by rewrite length_map in Hi.
Qed.

(** The hint either changes nothing or points at the pair computed by
    [specHintPair]. *)
Lemma hint_cases w :
  ids_are_positions w ->
  hint w = (Done tt, w) \/
  exists a b,
    specHintPair (candidates w) = Some [a; b] /\
    (0 < hints (gs w))%Z /\
    hint w = (Done tt, afterHint a b w).
Proof.
  intros Hpos. unfold hint, bind, gets.
  destruct (hints (gs w) <=? 0)%Z eqn:Eh; cbn; [by left|].
  destruct (gameActive (gs w)); cbn; [|by left].
  fold (candidates w).
  destruct (length (candidates w) <=? 1); [by left|].
  rewrite findHintPair_flowerGroupsOf.
  destruct (specHintPair (candidates w)) as [l|] eqn:E; [|by left].
  right.
  destruct (specHintPair_sound _ _ (ascending_candidates _ Hpos) E)
    as (ca & cb & -> & Ha & Hb & _).
  exists (id ca), (id cb). split; [done|]. split; [lia|].
  destruct (candidate_id_valid _ _ Hpos Ha) as [la Hla].
  destruct (candidate_id_valid _ _ Hpos Hb) as [lb Hlb].
  cbn. unfold highlight, bind, gets, logUi, modify, setTimer, modify_gs.
  cbn. rewrite Hla. cbn. rewrite Hlb. cbn. reflexivity.
Qed.

(** ** What each handler leaves alone *)

Ltac unfold_js :=
  repeat progress unfold handleCardClick, resolvePair, flipBack, showWinScreen, showScreen,
    startTimer, updateScore, cardAt, readCard, writeCard, readProp,
    clearInterval, setTimer, logUi, renderCards, quitGame, confirmQuit,
    showModal, hideModal, bind, gets, modify_gs, modify, ret, throw in *.

Ltac case_step :=
  match goal with
  | |- context [match ?x with _ => _ end] =>
      lazymatch x with
      | context [match _ with _ => _ end] => fail
      | _ => destruct x eqn:?
      end
  end.

Ltac js_cases := unfold_js; cbn; repeat (case_step; cbn).

Lemma handleCardClick_frame cardId w :
  let w' := snd (handleCardClick cardId w) in
  hints (gs w') = hints (gs w) /\
  gameActive (gs w') = gameActive (gs w) /\
  cards (gs w') = cards (gs w) /\
  timer (gs w') = timer (gs w) /\
  timerInterval (gs w') = timerInterval (gs w) /\
  currentDifficulty (gs w') = currentDifficulty (gs w) /\
  ui w' = ui w.
Proof. cbn zeta. js_cases; done. Qed.

Lemma findHintPair_two G l :
  findHintPair G = Some l -> exists a b, l = [a; b].
Proof.
  unfold findHintPair.
  destruct (List.find _ G) as [[k ids]|] eqn:E; [|done].
  apply find_some in E as [_ Hlen]. cbn in Hlen.
  intros [= <-]. destruct ids as [|a [|b ids]]; cbn in *; try done.
  by exists a, b.
Qed.

(** Without any assumption on the ids, a call of [hint] changes nothing,
    or completes on a pair, or stops with a [TypeError] at the first or
    the second highlight. *)
Lemma hint_general w :
  hint w = (Done tt, w) \/
  exists a b,
    (0 < hints (gs w))%Z /\
    (hint w = (Done tt, afterHint a b w) \/
     hint w = (Threw TypeError, w) \/
     hint w = (Threw TypeError, afterHighlight a w)).
Proof.
  unfold hint, bind, gets.
  destruct (hints (gs w) <=? 0)%Z eqn:Eh; cbn; [by left|].
  destruct (gameActive (gs w)); cbn; [|by left].
  destruct (length _ <=? 1); [by left|].
  destruct (findHintPair _) as [l|] eqn:E; [|by left].
  right. destruct (findHintPair_two _ _ E) as (a & b & ->).
  exists a, b. split; [lia|].
  cbn. unfold highlight, bind, gets, logUi, modify, setTimer, modify_gs.
  cbn. destruct (nthZ (cards (gs w)) a); cbn; [|by right; left].
  destruct (nthZ (cards (gs w)) b); cbn; [by left|by right; right].
Qed.

Lemma hint_hints w :
  hints (gs (snd (hint w)))
  = (hints (gs w) - (if hintGiven w then 1 else 0))%Z /\
  (hintGiven w = true -> (0 < hints (gs w))%Z) /\
  gameActive (gs (snd (hint w))) = gameActive (gs w).
Proof.
  unfold hintGiven.
  destruct (hint_general w) as [->|(a & b & Hpos & [->| [->| ->]])]; cbn.
  - rewrite Nat.eqb_refl. cbn. split; [lia|done].
  - rewrite !length_app. cbn.
    rewrite (proj2 (Nat.eqb_neq _ _)) by lia. cbn. done.
  - split; [lia|done].
  - split; [lia|done].
Qed.

Lemma fire_frame h w :
  let w' := snd (fire h w) in
  hints (gs w') = hints (gs w) /\
  (tasks w !! h <> Some TShowWin ->
   gameActive (gs w') = gameActive (gs w) /\ ui w' = ui w).
Proof.
  cbn zeta. unfold fire. unfold_js.
  destruct (tasks w !! h) as [[| | |]|] eqn:E; cbn; try done.
  repeat (case_step; cbn); done.
Qed.

(** Only [hint] touches the number of hints left within a session. *)
Lemma step_hints e w :
  startsSession e = false ->
  hints (gs (step e w))
  = (hints (gs w) - (if isHint e && hintGiven w then 1 else 0))%Z.
Proof.
  intros Hs. unfold step.
  destruct e as [d|i| |[|]| | | |h]; cbn [handle isHint andb]; try done.
  - rewrite (proj1 (handleCardClick_frame i w)). lia.
  - apply hint_hints.
  - cbn. lia.
  - cbn. lia.
  - js_cases; lia.
  - cbn. lia.
  - rewrite (proj1 (fire_frame h w)). lia.
Qed.

Lemma hints_run es w :
  Forall (fun e => startsSession e = false) es ->
  (0 <= hints (gs w))%Z ->
  hints (gs (run es w)) = (hints (gs w) - Z.of_nat (hintsGiven es w))%Z /\
  (0 <= hints (gs (run es w)))%Z.
Proof.
  intros Hes. revert w.
  induction Hes as [|e es He _ IH]; intros w Hw; cbn; [lia|].
  fold (run es (step e w)).
  assert (Hstep := step_hints e w He).
  assert (Hpos : (0 <= hints (gs (step e w)))%Z).
  { rewrite Hstep. destruct (isHint e && hintGiven w) eqn:E; [|lia].
    apply andb_prop in E as [He' Hg]. destruct e; try done.
    apply hint_hints in Hg. lia. }
  destruct (IH _ Hpos) as [-> Hge]. split; [|done].
  rewrite Hstep. destruct (isHint e && hintGiven w); lia.
Qed.

(** *** Ids and symbols are fixed when the deck is dealt *)

Lemma faces_alter f l h cs :
  (forall c, id (f c) = id c) -> (forall c, value (f c) = value c) ->
  map (fun c => (id c, value c)) (map (deref (alter f l h)) cs)
  = map (fun c => (id c, value c)) (map (deref h) cs).
Proof.
  intros Hid Hval. rewrite !map_map. apply map_ext. intros l'.
  unfold deref. rewrite list_lookup_alter.
  destruct (decide (l = l')) as [->|Hne].
  - destruct (h !! l') as [c|]; cbn; [by rewrite Hid, Hval|reflexivity].
  - reflexivity.
Qed.

Lemma faces_alter_flipped b l h cs :
  map (fun c => (id c, value c)) (map (deref (alter (set_flipped b) l h)) cs)
  = map (fun c => (id c, value c)) (map (deref h) cs).
Proof. by apply faces_alter. Qed.

Lemma faces_alter_matched b l h cs :
  map (fun c => (id c, value c)) (map (deref (alter (set_matched b) l h)) cs)
  = map (fun c => (id c, value c)) (map (deref h) cs).
Proof. by apply faces_alter. Qed.

Lemma step_faces e w : startsSession e = false -> faces (step e w) = faces w.
Proof.
  intros Hs. unfold step, faces, deck.
  destruct e as [d|i| |[|]| | | |h]; cbn [handle]; try done.
  - js_cases; rewrite ?faces_alter_matched, ?faces_alter_flipped; done.
  - destruct (hint_general w) as [->|(a & b & _ & [->| [->| ->]])]; done.
  - js_cases; done.
  - unfold fire. js_cases;
      rewrite ?faces_alter_matched, ?faces_alter_flipped; done.
Qed.

Lemma ids_are_positions_faces w w' :
  faces w' = faces w -> ids_are_positions w -> ids_are_positions w'.
Proof.
  unfold ids_are_positions, faces. intros Hf Hpos.
  assert (Hid : map id (deck w') = map id (deck w)).
  { apply (f_equal (map fst)) in Hf. by rewrite !map_map in Hf. }
  assert (Hlen : length (deck w') = length (deck w)).
  { apply (f_equal length) in Hid. by rewrite !length_map in Hid. }
  by rewrite Hid, Hlen.
Qed.

Lemma symbols_from_alphabet_faces w w' :
  faces w' = faces w -> symbols_from_alphabet w -> symbols_from_alphabet w'.
Proof.
  unfold symbols_from_alphabet, faces. intros Hf Hs.
  assert (Hv : map value (deck w') = map value (deck w)).
  { apply (f_equal (map snd)) in Hf. by rewrite !map_map in Hf. }
  apply Forall_forall. intros c Hc.
  assert (Hin : value c ∈ map value (deck w'))
    by (apply list_elem_of_fmap; eauto).
  rewrite Hv in Hin. apply list_elem_of_fmap in Hin as (c0 & -> & Hc0).
  by apply (proj1 (Forall_forall _ _) Hs).
Qed.

Lemma startGame_invariants p w :
  ids_are_positions (snd (startGame (presetName p) w)) /\
  symbols_from_alphabet (snd (startGame (presetName p) w)).
Proof.
  rewrite startGame_preset. cbn [snd].
  unfold ids_are_positions, symbols_from_alphabet.
  rewrite deck_afterStart. set (ys := shuffledValues _ _). split.
  - apply list_eq. intros i.
    rewrite !list_lookup_fmap, list_lookup_imap, length_imap.
    destruct (ys !! i) as [y|] eqn:E; cbn.
    + rewrite lookup_seq_lt by (by eapply lookup_lt_Some). done.
    + rewrite lookup_seq_ge; [done|]. by apply lookup_ge_None.
  - apply Forall_forall. intros c Hc.
    assert (Hv : value c ∈ map value (imap newCard ys))
      by (apply list_elem_of_fmap; eauto).
    rewrite map_value_imap_newCard in Hv. unfold ys in Hv.
    rewrite shuffledValues_perm, selectedFlowers_preset in Hv.
    apply elem_of_app in Hv.
    eapply subseteq_take. destruct Hv as [Hv|Hv]; exact Hv.
Qed.

(** C8. On a deck whose ids are the grid positions and whose symbols come
    from the alphabet, a call of [hint] never fails. When it highlights
    cards, these are two face-down unmatched cards of one symbol: the two
    of lowest id of that symbol, the symbol being the first, by the id of
    its first face-down unmatched card, that has two such cards; the number
    of hints goes down by exactly one and no card changes. [startGame]
    deals such a deck with three hints, no handler or callback of the
    session changes ids or symbols, only successful calls use hints up,
    and after three of them every further call changes nothing. *)
Theorem hint_points_at_first_pair :
  (forall w,
     ids_are_positions w ->
     symbols_from_alphabet w ->
     let w' := snd (hint w) in
     fst (hint w) = Done tt /\
     (w' = w \/
      exists ca cb,
        ui w' = ui w ++ [UiHint (id ca); UiHint (id cb)] /\
        faceDownUnmatched w ca /\ faceDownUnmatched w cb /\
        (id ca < id cb)%Z /\ value ca = value cb /\
        (forall c, faceDownUnmatched w c -> value c = value ca ->
                   id c = id ca \/ (id cb <= id c)%Z) /\
        (forall c c', faceDownUnmatched w c -> faceDownUnmatched w c' ->
                      value c = value c' -> (id c < id c')%Z ->
                      (id ca <= id c)%Z) /\
        hints (gs w') = (hints (gs w) - 1)%Z /\
        cardObjs w' = cardObjs w /\ cards (gs w') = cards (gs w))) /\
  (forall p w,
     let w' := snd (startGame (presetName p) w) in
     hints (gs w') = 3%Z /\ ids_are_positions w' /\ symbols_from_alphabet w') /\
  (forall e w,
     startsSession e = false ->
     ids_are_positions w -> symbols_from_alphabet w ->
     ids_are_positions (step e w) /\ symbols_from_alphabet (step e w)) /\
  (forall es w0,
     hints (gs w0) = 3%Z ->
     Forall (fun e => startsSession e = false) es ->
     hintsGiven es w0 <= 3 /\
     hints (gs (run es w0)) = (3 - Z.of_nat (hintsGiven es w0))%Z /\
     (hintsGiven es w0 = 3 -> hint (run es w0) = (Done tt, run es w0))).
Proof.
  split; [|split; [|split]].
  - intros w Hpos _. cbn zeta.
    destruct (hint_cases w Hpos) as [->|(a & b & E & Hh & ->)];
      [by split; [|left]|].
    split; [done|]. right. cbn [snd].
    destruct (specHintPair_sound _ _ (ascending_candidates _ Hpos) E)
      as (ca & cb & [= -> ->] & Ha & Hb & Hab & Hv & H2 & H3).
    exists ca, cb. unfold faceDownUnmatched.
    rewrite <- !elem_of_candidates.
    split; [by cbn; rewrite <- app_assoc|].
    do 4 (split; [done|]).
    split; [intros c Hc; apply H2; by apply elem_of_candidates|].
    split; [|done].
    intros c c' Hc Hc'. apply H3; by apply elem_of_candidates.
  - intros p w. cbn zeta. split; [by rewrite startGame_preset|].
    apply startGame_invariants.
  - intros e w Hs Hpos Hsym. pose proof (step_faces e w Hs) as Hf.
    split; [by eapply ids_are_positions_faces
           |by eapply symbols_from_alphabet_faces].
  - intros es w0 H3 Hes.
    destruct (hints_run es w0 Hes) as [Hrun Hge]; [lia|].
    rewrite H3 in Hrun. split; [lia|]. split; [done|].
    intros Hn. rewrite Hn in Hrun.
    unfold hint, bind, gets. rewrite Hrun. done.
Qed.

Lemma hint_points_at_first_pair_witness :
  let w := run [EStart "easy"; EClick 0] (initialWorld rndLast) in
  ids_are_positions w /\ fst (hint w) = Done tt.
Proof.
  cbn zeta. split; [reflexivity|].
  apply (proj1 hint_points_at_first_pair
           (run [EStart "easy"; EClick 0] (initialWorld rndLast))).
  - reflexivity.
  - apply (bool_decide_unpack
             (Forall (fun c => value c ∈ flowers)
                (deck (run [EStart "easy"; EClick 0] (initialWorld rndLast))))).
    vm_compute. exact I.
Defined.

(** With card 0 face up, the first symbol that still has two face-down
    cards is the one of cards 1 and 9. *)
Example hint_after_first_click :
  let w := run [EStart "easy"; EClick 0; EHint] (initialWorld rndLast) in
  ui w = [UiHint 1; UiHint 9] /\ hints (gs w) = 2%Z.
Proof. by vm_compute. Qed.

(** C10. In an active game with hints left and at least two face-down
    unmatched cards, of which no two carry the same symbol, [hint] changes
    nothing: no card is highlighted and the number of hints stays. *)
Theorem hint_without_pair_changes_nothing (w : World) :
  symbols_from_alphabet w ->
  gameActive (gs w) = true ->
  (0 < hints (gs w))%Z ->
  2 <= length (candidates w) ->
  NoDup (map value (candidates w)) ->
  hint w = (Done tt, w).
Proof.
  intros _ Hact Hh Hlen Hnd. unfold hint, bind, gets.
  rewrite Hact, (proj2 (Z.leb_gt _ _) Hh). cbn.
  fold (candidates w).
  rewrite (proj2 (Nat.leb_gt _ _)) by lia.
  by rewrite findHintPair_flowerGroupsOf, specHintPair_None.
Qed.

Lemma hint_without_pair_changes_nothing_witness :
  let w := run pendingMismatchTrace (initialWorld rndLast) in
  map id (candidates w) = [14; 15]%Z /\
  flippedCards (gs w) = [6; 7]%Z /\
  hint w = (Done tt, w).
Proof.
  cbn zeta. split; [by vm_compute|]. split; [by vm_compute|].
  apply hint_without_pair_changes_nothing.
  - apply (bool_decide_unpack
             (Forall (fun c => value c ∈ flowers)
                (deck (run pendingMismatchTrace (initialWorld rndLast))))).
    vm_compute. exact I.
  - by vm_compute.
  - by vm_compute.
  - vm_compute. lia.
  - apply (bool_decide_unpack
             (NoDup (map value
                (candidates (run pendingMismatchTrace (initialWorld rndLast)))))).
    vm_compute. exact I.
Defined.

(** ** Winning *)

(** C2, as stated, fails: right after the click that matches the last
    pair the game is still active, the interval is still registered and
    goes on ticking, and nothing has been shown yet. *)
Lemma final_match_leaves_game_active :
  let w := run allPairsTrace (initialWorld rndLast) in
  matchedPairs (gs w) = 8%Z /\
  pairs <$> difficulties !! currentDifficulty (gs w) = Some 8%Z /\
  gameActive (gs w) = true /\
  timerInterval (gs w) = Some 1%positive /\
  tasks w !! 1%positive = Some TTick /\
  timer (gs w) = 0%Z /\
  timer (gs (step (EFire 1) w)) = 1%Z /\
  ui w = [].
Proof. by vm_compute. Qed.

Lemma final_match_schedules_win w cardId p :
  currentDifficulty (gs w) = presetName p ->
  matchedPairs (gs w) <> presetPairs p ->
  matchedPairs (gs (snd (handleCardClick cardId w))) = presetPairs p ->
  let w' := snd (handleCardClick cardId w) in
  fst (handleCardClick cardId w) = Done tt /\
  gameActive (gs w') = true /\
  timerInterval (gs w') = timerInterval (gs w) /\
  tasks w' = <[nextHandle w := TShowWin]> (tasks w) /\
  ui w' = ui w.
Proof.
  destruct w as [[cs fc mp mc ga tm ti cd hn] co ar tk nh sc mo rn dr u].
  cbn. intros -> Hne. unfold_js. cbn.
  rewrite ?lookupDifficulty_preset, ?pairs_presetConfig.
  repeat (case_step; cbn;
          rewrite ?lookupDifficulty_preset, ?pairs_presetConfig);
    intros Hmp; try done.
  all: destruct ga; try done.
  all: repeat split; try done.
  all: match goal with
       | H : bool_decide _ = false |- _ =>
           apply bool_decide_eq_false in H; congruence
       end.
Qed.

Lemma win_callback w h p :
  tasks w !! h = Some TShowWin ->
  currentDifficulty (gs w) = presetName p ->
  let w' := snd (fire h w) in
  fst (fire h w) = Done tt /\
  gameActive (gs w') = false /\
  timerInterval (gs w') = None /\
  (forall t, timerInterval (gs w) = Some t -> tasks w' !! t = None) /\
  tasks w' !! h = None /\
  ui w'
  = ui w ++ [UiWin (timer (gs w)) (moveCount (gs w))
               (Some (specScore p (timer (gs w)) (moveCount (gs w))))].
Proof.
  destruct w as [[cs fc mp mc ga tm ti cd hn] co ar tk nh sc mo rn dr u].
  cbn. intros Hh ->. unfold fire, bind, gets. cbn. rewrite Hh. unfold_js.
  unfold totalScore, moveBonus, timeBonus.
  destruct ti as [t|]; cbn; rewrite lookupDifficulty_preset; cbn;
    rewrite difficultyBonus_preset, pairs_presetConfig; cbn.
  - repeat split; try done.
    + intros t' [= <-]. apply lookup_delete_eq.
    + rewrite !lookup_delete_None. tauto.
  - repeat split; try done. apply lookup_delete_eq.
Qed.

(** Within a session only the win callback clears [gameActive]. *)
Lemma step_gameActive e w :
  startsSession e = false ->
  (forall h, e = EFire h -> tasks w !! h <> Some TShowWin) ->
  gameActive (gs (step e w)) = gameActive (gs w).
Proof.
  intros Hs Hw. unfold step.
  destruct e as [d|i| |[|]| | | |h]; cbn [handle]; try done.
  - apply handleCardClick_frame.
  - apply hint_hints.
  - js_cases; done.
  - apply fire_frame. by apply Hw.
Qed.

(** C2, amended. The click that matches the last pair returns with
    [matchedPairs] equal to [pairs] and the win callback scheduled; the
    game is still active and the timer still runs. When that callback
    fires, [gameActive] becomes false, the interval is cleared, and exactly
    one win display with the time, the moves and the score is produced; the
    callback is then gone. From [startGame] on, [gameActive] stays true
    until that callback fires. *)
Theorem win_is_declared_by_the_delayed_callback :
  (forall w cardId p,
     currentDifficulty (gs w) = presetName p ->
     matchedPairs (gs w) <> presetPairs p ->
     matchedPairs (gs (snd (handleCardClick cardId w))) = presetPairs p ->
     let w' := snd (handleCardClick cardId w) in
     fst (handleCardClick cardId w) = Done tt /\
     gameActive (gs w') = true /\
     timerInterval (gs w') = timerInterval (gs w) /\
     tasks w' = <[nextHandle w := TShowWin]> (tasks w) /\
     ui w' = ui w) /\
  (forall w h p,
     tasks w !! h = Some TShowWin ->
     currentDifficulty (gs w) = presetName p ->
     let w' := snd (fire h w) in
     fst (fire h w) = Done tt /\
     gameActive (gs w') = false /\
     timerInterval (gs w') = None /\
     (forall t, timerInterval (gs w) = Some t -> tasks w' !! t = None) /\
     tasks w' !! h = None /\
     ui w'
     = ui w ++ [UiWin (timer (gs w)) (moveCount (gs w))
                  (Some (specScore p (timer (gs w)) (moveCount (gs w))))]) /\
  (forall p w, gameActive (gs (snd (startGame (presetName p) w))) = true) /\
  (forall e w,
     startsSession e = false ->
     (forall h, e = EFire h -> tasks w !! h <> Some TShowWin) ->
     gameActive (gs (step e w)) = gameActive (gs w)).
Proof.
  split; [exact final_match_schedules_win|].
  split; [exact win_callback|].
  split; [|exact step_gameActive].
  intros p w. by rewrite startGame_preset.
Qed.

Lemma win_is_declared_by_the_delayed_callback_witness :
  let w := run (take 16 allPairsTrace) (initialWorld rndLast) in
  matchedPairs (gs w) = 7%Z /\
  gameActive (gs (snd (handleCardClick 15 w))) = true /\
  tasks (snd (handleCardClick 15 w)) = <[nextHandle w := TShowWin]> (tasks w).
Proof.
  cbn zeta. split; [by vm_compute|].
  pose proof (proj1 win_is_declared_by_the_delayed_callback
                (run (take 16 allPairsTrace) (initialWorld rndLast))
                15%Z Easy) as H.
  destruct H as (_ & H2 & _ & H4 & _); [by vm_compute..|].
  split; [exact H2|exact H4].
Defined.

(** ** Callbacks that outlive their session *)

(** C1 does not hold of the script. [startGame] replaces [gameState], whose
    [timerInterval] is then [null], before [startTimer] looks for an
    interval to clear, so the interval of the old session (handle 1) stays
    registered next to the new one (handle 3); the flip-back of the old
    session (handle 2) is never cancelled either. When they fire in the new
    session, the old tick advances the new [timer], and the old flip-back
    empties the new [flippedCards] while card 0 of the new deck stays face
    up; that card can then no longer be selected, so its pair can never be
    matched. The old flip-back does leave the card objects of the new deck
    alone: it holds the objects of the old deck. *)
Theorem stale_callbacks_reach_new_session :
  tasks oldSession !! 1%positive = Some TTick /\
  tasks oldSession !! 2%positive = Some (TFlipBack 0 1) /\
  timerInterval (gs newSession) = Some 3%positive /\
  tasks newSession !! 1%positive = Some TTick /\
  tasks newSession !! 2%positive = Some (TFlipBack 0 1) /\
  cards (gs newSession) = seq 16 16 /\
  timer (gs newSession) = 0%Z /\
  flippedCards (gs newSession) = [0%Z] /\
  map flipped (deck newSession) = true :: repeat false 15 /\
  timer (gs (step (EFire 1) newSession)) = 1%Z /\
  flippedCards (gs (step (EFire 2) newSession)) = [] /\
  deck (step (EFire 2) newSession) = deck newSession /\
  (let w := run [EFire 2; EClick 8; EClick 0] newSession in
   flippedCards (gs w) = [8%Z] /\ matchedPairs (gs w) = 0%Z /\
   map value (deck w) !! 0 = map value (deck w) !! 8).
Proof. by vm_compute. Qed.

(** * Further properties of the script *)

(** ** The shuffle on short arrays and its range *)

(** X1. An array with at most one element is left as it is and no random
    number is drawn: the loop starts at [length - 1] and needs [i > 0]. *)
Theorem shuffleArray_short_array (w : World) (a : loc) (xs : list string) :
  arrays w !! a = Some xs ->
  length xs <= 1 ->
  shuffleArray a w = (Done a, w).
Proof.
  intros Ha Hlen. rewrite (shuffleArray_spec _ _ _ Ha).
  replace (length xs - 1) with 0 by lia. cbn [shufflePure].
  unfold afterShuffle, set_draws, set_arrays. destruct w; cbn in *.
  rewrite list_insert_id by done. by rewrite Nat.add_0_r.
Qed.

Lemma shuffleArray_short_array_witness :
  shuffleArray 0 (set_arrays [["a"]] (initialWorld rndZero))
  = (Done 0, set_arrays [["a"]] (initialWorld rndZero)).
Proof.
  apply (shuffleArray_short_array _ 0 ["a"]); [reflexivity|simpl; lia].
Defined.

Lemma shufflePure_ext rnd rnd' k i xs :
  (forall m, k <= m -> rnd m = rnd' m) ->
  shufflePure rnd k i xs = shufflePure rnd' k i xs.
Proof.
  revert k xs. induction i as [|i IH]; intros k xs H; [done|].
  cbn [shufflePure]. rewrite (H k) by lia. apply IH.
  intros m Hm. apply H. lia.
Qed.

Lemma floorMul_sampleFor j i : j <= i -> floorMul (sampleFor j i) (i + 1) = j.
Proof.
  intros Hj. unfold floorMul, sampleFor. cbn [s_num s_gap].
  replace (j + (i - j) + 1) with (i + 1) by lia.
  apply Nat.div_mul. lia.
Qed.

Lemma perm_same_tail_head (x y : string) l : x :: l ≡ₚ y :: l -> x = y.
Proof.
  intros H. apply Permutation_singleton_inj.
  apply (Permutation_app_inv_r l [x] [y]). exact H.
Qed.

(** Whatever agrees with the target beyond index [i] can be brought to the
    target by the steps from [i] down to 1. *)
Lemma shufflePure_reaches i :
  forall k xs ys,
    xs ≡ₚ ys -> drop (S i) xs = drop (S i) ys ->
    exists rnd, shufflePure rnd k i xs = ys.
Proof.
  induction i as [|i IH]; intros k xs ys Hperm Htail.
  - exists rndZero. cbn.
    destruct xs as [|x xs], ys as [|y ys]; cbn in Htail; simplify_eq.
    + done.
    + by apply Permutation_nil_cons in Hperm.
    + symmetry in Hperm. by apply Permutation_nil_cons in Hperm.
    + by rewrite (perm_same_tail_head _ _ _ Hperm).
  - assert (Hlen : length xs = length ys) by (by apply Permutation_length).
    destruct (decide (S i < length xs)) as [Hlt|Hge].
    + destruct (lookup_lt_is_Some_2 ys (S i)) as [y Hy]; [lia|].
      destruct (lookup_lt_is_Some_2 xs (S i) Hlt) as [x Hx].
      assert (Hpre : take (S (S i)) xs ≡ₚ take (S (S i)) ys).
      { apply (Permutation_app_inv_r (drop (S (S i)) xs)).
        rewrite take_drop, Htail, take_drop. exact Hperm. }
      assert (Hin : y ∈ take (S (S i)) xs).
      { rewrite Hpre. apply elem_of_take. exists (S i). split; [done|lia]. }
      apply elem_of_take in Hin as (j & Hj & Hjlt).
      set (xs' := swapList xs (S i) j).
      assert (Hxs' : xs' = <[j := x]> (<[S i := y]> xs))
        by (unfold xs', swapList; by rewrite Hx, Hj).
      assert (Hat : xs' !! S i = Some y).
      { rewrite Hxs'. destruct (decide (j = S i)) as [->|Hne].
        - simplify_eq. rewrite list_lookup_insert_eq; [done|].
          by rewrite length_insert.
        - rewrite list_lookup_insert_ne by done.
          by rewrite list_lookup_insert_eq. }
      assert (Htail' : drop (S i) xs' = drop (S i) ys).
      { rewrite (drop_S _ _ _ Hat), (drop_S _ _ _ Hy). f_equal.
        rewrite Hxs', <- Htail.
        rewrite drop_insert_lt by lia. by rewrite drop_insert_lt by lia. }
      destruct (IH (S k) xs' ys) as [rnd' Hrnd'];
        [by rewrite <- Hperm; apply swapList_perm|done|].
      exists (fun m => if m =? k then sampleFor j (S i) else rnd' m).
      cbn [shufflePure]. rewrite Nat.eqb_refl.
      rewrite floorMul_sampleFor by lia. fold xs'.
      rewrite <- Hrnd'. apply shufflePure_ext.
      intros m Hm. by rewrite (proj2 (Nat.eqb_neq m k)) by lia.
    + destruct (IH (S k) xs ys Hperm) as [rnd' Hrnd'].
      { rewrite !drop_ge by lia. done. }
      exists rnd'. cbn [shufflePure].
      unfold swapList. by rewrite (lookup_ge_None_2 xs (S i)) by lia.
Qed.

(** X2. Every ordering of the array can come out of the shuffle: for each
    permutation of the contents there is a random source under which
    [shuffleArray] leaves exactly that permutation in the array. *)
Theorem shuffleArray_reaches_every_ordering
    (w : World) (a : loc) (xs ys : list string) :
  arrays w !! a = Some xs ->
  ys ≡ₚ xs ->
  exists rnd,
    arrays (snd (shuffleArray a (set_random rnd w))) !! a = Some ys.
Proof.
  intros Ha Hperm.
  destruct (shufflePure_reaches (length xs - 1) (draws w) xs ys) as [rnd Hrnd].
  - by symmetry.
  - rewrite !drop_ge; [done| |]; rewrite ?(Permutation_length Hperm); lia.
  - exists rnd.
    assert (Ha' : arrays (set_random rnd w) !! a = Some xs) by exact Ha.
    rewrite (shuffleArray_spec _ _ _ Ha'). cbn.
    rewrite Hrnd. apply list_lookup_insert_eq. by eapply lookup_lt_Some.
Qed.

Lemma shuffleArray_reaches_every_ordering_witness :
  exists rnd,
    arrays (snd (shuffleArray 0
              (set_random rnd (set_arrays [["a"; "b"; "c"]] (initialWorld rndZero)))))
      !! 0 = Some ["c"; "a"; "b"].
Proof.
  apply (shuffleArray_reaches_every_ordering
           (set_arrays [["a"; "b"; "c"]] (initialWorld rndZero)) 0
           ["a"; "b"; "c"] ["c"; "a"; "b"]).
  - reflexivity.
  - apply (bool_decide_unpack (["c"; "a"; "b"] ≡ₚ ["a"; "b"; "c"])).
    vm_compute. exact I.
Defined.

(** ** Starting a game, for any name *)

Lemma createCards_defined config w :
  config <> CfgUndefined ->
  createCards config w = (Done tt, afterDeal (configPairs config) w).
Proof.
  intros Hc.
  assert (Hp : forall f, exists v, readProp f config = ret v /\
                 (f = pairs -> v = configPairs config)).
  { intros f. destruct config as [| |c]; [done| |]; eexists;
      (split; [reflexivity|by intros ->]). }
  destruct (Hp cols) as (vc & Ec & _).
  destruct (Hp pairs) as (vp & Ep & Hvp). rewrite (Hvp eq_refl) in Ep.
  unfold createCards, bind. rewrite Ec, Ep. unfold ret, allocArray.
  set (sel := slice0 flowers (configPairs config)).
  erewrite shuffleArray_spec; last first.
  { cbn. by apply list_lookup_middle. }
  unfold readArray, gets, afterShuffle. cbn.
  rewrite list_lookup_insert_eq by (rewrite length_app; simpl; lia).
  cbn. unfold afterDeal. fold sel.
  rewrite insert_app_r_alt, Nat.sub_diag by lia. cbn.
  reflexivity.
Qed.

Lemma readProp_defined f config :
  config <> CfgUndefined -> exists v, readProp f config = ret v.
Proof. destruct config; [done| |]; eexists; reflexivity. Qed.

Arguments shufflePure : simpl never.

(** [startGame] either stops at the first read of [config], with the
    state replaced, or runs to its end. *)
Lemma startGame_shape d w :
  (lookupDifficulty d = CfgUndefined /\
   startGame d w = (Threw TypeError, set_gs (freshState d) w)) \/
  (lookupDifficulty d <> CfgUndefined /\
   startGame d w = (Done tt, afterStartOf d w)).
Proof.
  assert (lookupDifficulty d = CfgUndefined \/
          lookupDifficulty d <> CfgUndefined) as [E|E]
    by (destruct (lookupDifficulty d); [left|right|right]; done).
  - left. split; [done|].
    unfold startGame, bind, modify_gs, modify. cbn. by rewrite E.
  - right. split; [done|].
    destruct (readProp_defined pairs _ E) as [v Hv].
    unfold startGame, bind, modify_gs, modify. cbn.
    rewrite createCards_defined by done.
    unfold updateScore, bind, gets. cbn. rewrite Hv. cbn.
    reflexivity.
Qed.

Lemma deck_afterStartOf d w :
  exists ys, deck (afterStartOf d w) = imap newCard ys.
Proof.
  unfold deck, afterStartOf, afterDeal.
  set (ys := shufflePure _ _ _ _). exists ys.
  cbn [gs cardObjs cards set_gs set_cards set_timerInterval].
  rewrite <- (length_imap newCard ys). apply deref_fresh.
Qed.

(** X3. Whatever name it is given, [startGame] leaves no card revealed, no
    pair matched, no move counted, three hints, the clock at zero and the
    game active under that name; every card of the new deck lies face down
    and unmatched; the card objects that existed before are not touched,
    and nothing is displayed. [restartGame] does the same under the current
    name when confirmed, and nothing at all when cancelled. *)
Theorem startGame_resets (d : string) (w : World) :
  let w' := snd (startGame d w) in
  flippedCards (gs w') = [] /\
  matchedPairs (gs w') = 0%Z /\
  moveCount (gs w') = 0%Z /\
  hints (gs w') = 3%Z /\
  timer (gs w') = 0%Z /\
  gameActive (gs w') = true /\
  currentDifficulty (gs w') = d /\
  Forall (fun c => flipped c = false /\ matched c = false) (deck w') /\
  (forall l, l < length (cardObjs w) -> cardObjs w' !! l = cardObjs w !! l) /\
  ui w' = ui w /\
  restartGame true w = startGame (currentDifficulty (gs w)) w /\
  restartGame false w = (Done tt, w).
Proof.
  cbn zeta.
  destruct (startGame_shape d w) as [[_ ->]|[_ ->]]; cbn [snd].
  - repeat split; done.
  - destruct (deck_afterStartOf d w) as [ys Hys]. rewrite Hys.
    repeat split; try done.
    + apply Forall_forall. intros c Hc.
      apply list_elem_of_lookup in Hc as [i Hi].
      rewrite list_lookup_imap in Hi.
      destruct (ys !! i); simplify_eq/=; done.
    + intros l Hl. cbn. by rewrite lookup_app_l.
Qed.

(** ** What every handler and callback keeps *)

Ltac event_cases e w :=
  unfold step;
  destruct e as [d|i| |[|]| | | |h]; cbn [handle];
  [ destruct (startGame_shape d w) as [[_ ->]|[_ ->]]
  | idtac
  | destruct (hint_general w) as [->|(a & b & Hhints & [->| [->| ->]])]
  | change (restartGame true w)
      with (startGame (currentDifficulty (gs w)) w);
    destruct (startGame_shape (currentDifficulty (gs w)) w)
      as [[_ ->]|[_ ->]]
  | idtac | idtac | idtac | idtac
  | unfold fire ].

(** X4. At most two cards are ever revealed and unresolved: no handler or
    callback, in any order and with any argument, makes [flippedCards]
    longer than two. *)
Theorem flippedCards_at_most_two (e : Event) (w : World) :
  length (flippedCards (gs w)) <= 2 ->
  length (flippedCards (gs (step e w))) <= 2.
Proof.
  intros H. event_cases e w; try (cbn; lia); try done.
  - js_cases; rewrite ?length_app; cbn in *; lia.
  - js_cases; cbn in *; lia.
  - js_cases; cbn in *; lia.
Qed.

Lemma flippedCards_at_most_two_witness :
  length (flippedCards
            (gs (step (EClick 2)
                   (run [EStart "easy"; EClick 0; EClick 1]
                        (initialWorld rndLast))))) <= 2.
Proof.
  apply flippedCards_at_most_two. vm_compute. lia.
Defined.

(** X5. The counters stay in range under every handler and callback: the
    matched pairs never exceed the moves, and neither they, the hints (at
    most three) nor the clock ever go below zero. *)
Theorem counters_stay_in_range (e : Event) (w : World) :
  (0 <= matchedPairs (gs w) <= moveCount (gs w))%Z ->
  (0 <= hints (gs w) <= 3)%Z ->
  (0 <= timer (gs w))%Z ->
  let g' := gs (step e w) in
  (0 <= matchedPairs g' <= moveCount g')%Z /\
  (0 <= hints g' <= 3)%Z /\
  (0 <= timer g')%Z.
Proof.
  intros Hm Hh Ht. cbn zeta. event_cases e w; try (cbn; lia); try done.
  - js_cases; cbn in *; lia.
  - js_cases; cbn in *; lia.
  - js_cases; cbn in *; lia.
Qed.

Lemma counters_stay_in_range_witness :
  let g' := gs (step (EClick 8) (run [EStart "easy"; EClick 0]
                                     (initialWorld rndLast))) in
  (0 <= matchedPairs g' <= moveCount g')%Z /\
  (0 <= hints g' <= 3)%Z /\
  (0 <= timer g')%Z.
Proof.
  apply counters_stay_in_range; vm_compute; repeat split; discriminate.
Defined.

(** ** An interval that loses its owner *)

Ltac orphan_tac :=
  cbn in *;
  repeat match goal with
         | H : _ /\ _ |- _ => destruct H
         | |- _ /\ _ => split
         | |- context [<[?k := _]> _ !! ?h] =>
             rewrite (lookup_insert_ne _ k h) by (intros ?; lia)
         | |- context [delete ?k _ !! ?h] =>
             rewrite (lookup_delete_ne _ k h) by congruence
         end;
  try done; try lia; try congruence; try (intros [= ?]; lia).

Lemma orphaned_step k e w : orphaned k w -> orphaned k (step e w).
Proof.
  unfold orphaned. intros H. event_cases e w.
  all: try solve [orphan_tac].
  - js_cases; orphan_tac.
  - js_cases; orphan_tac.
  - js_cases; orphan_tac.
Qed.

Lemma orphaned_run h es w : orphaned h w -> orphaned h (run es w).
Proof.
  revert w. induction es as [|e es IH]; intros w H; [done|].
  cbn. apply IH. by apply orphaned_step.
Qed.

(** X6. [startGame] cancels no interval. One that is running when a game
    is started is no longer the interval recorded in [gameState]; whatever
    happens afterwards it stays registered, and each time it fires the
    clock of the current game advances by one second. *)
Theorem interval_survives_startGame
    (w : World) (h : positive) (d : string) (es : list Event) :
  tasks w !! h = Some TTick ->
  (h < nextHandle w)%positive ->
  let w' := run (EStart d :: es) w in
  tasks w' !! h = Some TTick /\
  timerInterval (gs w') <> Some h /\
  timer (gs (step (EFire h) w')) = (timer (gs w') + 1)%Z.
Proof.
  intros Ht Hlt. cbn zeta.
  assert (H0 : orphaned h (step (EStart d) w)).
  { unfold orphaned, step. cbn [handle].
    destruct (startGame_shape d w) as [[_ ->]|[_ ->]]; orphan_tac. }
  change (run (EStart d :: es) w) with (run es (step (EStart d) w)).
  destruct (orphaned_run h es _ H0) as (Ht' & _ & Hti).
  split; [done|]. split; [done|].
  assert (Hfire : forall w0, tasks w0 !! h = Some TTick ->
            timer (gs (step (EFire h) w0)) = (timer (gs w0) + 1)%Z).
  { intros w0 H. unfold step. cbn [handle]. unfold fire, bind, gets.
    cbn. by rewrite H. }
  by apply Hfire.
Qed.

Lemma interval_survives_startGame_witness :
  let w := run [EStart "easy"; EClick 0] (initialWorld rndLast) in
  let w' := run [EStart "medium"; EClick 3; EHint] w in
  tasks w' !! 1%positive = Some TTick /\
  timerInterval (gs w') <> Some 1%positive /\
  timer (gs (step (EFire 1) w')) = (timer (gs w') + 1)%Z.
Proof.
  apply (interval_survives_startGame
           (run [EStart "easy"; EClick 0] (initialWorld rndLast))
           1%positive "medium" [EClick 3; EHint]).
  - reflexivity.
  - reflexivity.
Defined.

(** ** Selecting cards *)

Lemma click_ignored (w : World) (cardId : Z) :
  (gameActive (gs w) = false \/
   exists l, nthZ (cards (gs w)) cardId = Some l /\
             (flipped (deref (cardObjs w) l) = true \/
              matched (deref (cardObjs w) l) = true \/
              2 <= length (flippedCards (gs w)))) ->
  handleCardClick cardId w = (Done tt, w).
Proof.
  intros [Hina|(l & Hl & Hc)]; unfold handleCardClick, bind, gets, cardAt.
  - by rewrite Hina.
  - assert (Hcond : flipped (deref (cardObjs w) l)
                    || matched (deref (cardObjs w) l)
                    || (2 <=? length (flippedCards (gs w))) = true).
    { destruct Hc as [->|[->|Hlen]]; [done|by rewrite orb_true_r|].
      rewrite (proj2 (Nat.leb_le 2 _) Hlen). by rewrite !orb_true_r. }
    destruct (gameActive (gs w)); [|done]. cbn -[Nat.leb]. rewrite Hl.
    cbn -[Nat.leb]. unfold readCard, gets. cbn -[Nat.leb].
    by rewrite Hcond.
Qed.

(** X7. A click is ignored, leaving everything as it was, when the game is
    not active, and also when the card it names is already face up, is
    already matched, or two cards are already revealed. *)
Theorem handleCardClick_ignored (w : World) (cardId : Z) :
  (gameActive (gs w) = false \/
   exists l, nthZ (cards (gs w)) cardId = Some l /\
             (flipped (deref (cardObjs w) l) = true \/
              matched (deref (cardObjs w) l) = true \/
              2 <= length (flippedCards (gs w)))) ->
  handleCardClick cardId w = (Done tt, w).
Proof. apply click_ignored. Qed.

Lemma handleCardClick_ignored_witness :
  let w := run [EStart "easy"; EClick 0; EClick 8] (initialWorld rndLast) in
  handleCardClick 8 w = (Done tt, w).
Proof.
  apply handleCardClick_ignored. right. exists 8. split; [reflexivity|].
  right. left. reflexivity.
Defined.

Ltac bool_to_prop :=
  repeat match goal with
         | H : (_ && _) = true |- _ => apply andb_true_iff in H as [? ?]
         | H : (_ && _) = false |- _ => apply andb_false_iff in H as [?|?]
         | H : (_ || _) = true |- _ => apply orb_true_iff in H as [?|?]
         | H : (_ || _) = false |- _ => apply orb_false_iff in H as [? ?]
         | H : negb _ = true |- _ => apply negb_true_iff in H
         | H : negb _ = false |- _ => apply negb_false_iff in H
         | H : (_ =? _) = true |- _ => apply Nat.eqb_eq in H
         | H : (_ =? _) = false |- _ => apply Nat.eqb_neq in H
         | H : (_ <=? _) = true |- _ => apply Nat.leb_le in H
         | H : (_ <=? _) = false |- _ => apply Nat.leb_gt in H
         end.

(** X8. Within a session the move counter changes only through a click
    that turns the second card of an attempt, and then by exactly one,
    whether the two cards match or not; every other click, every hint,
    tick, flip-back, win display and quit leaves it alone. *)
Theorem moves_counted_once_per_attempt (e : Event) (w : World) :
  startsSession e = false ->
  moveCount (gs (step e w))
  = (moveCount (gs w)
     + match e with
       | EClick cardId => if completesPair w cardId then 1 else 0
       | _ => 0
       end)%Z.
Proof.
  intros Hs. event_cases e w; try done; try (cbn; lia).
  - unfold completesPair, revealable.
    js_cases; rewrite ?length_app in *; cbn in *; bool_to_prop;
      rewrite ?length_app in *; cbn in *; try congruence; try lia.
  - js_cases; cbn; lia.
  - js_cases; cbn; lia.
Qed.

Lemma moves_counted_once_per_attempt_witness :
  let w := run [EStart "easy"; EClick 0] (initialWorld rndLast) in
  completesPair w 1 = true /\
  moveCount (gs (step (EClick 1) w)) = (moveCount (gs w) + 1)%Z.
Proof.
  cbn zeta. split; [reflexivity|].
  apply (moves_counted_once_per_attempt (EClick 1)). reflexivity.
Defined.

Lemma deref_alter_eq f l h :
  l < length h -> deref (alter f l h) l = f (deref h l).
Proof.
  intros Hl. unfold deref. rewrite list_lookup_alter_eq.
  destruct (lookup_lt_is_Some_2 h l Hl) as [c Hc]. by rewrite Hc.
Qed.

Lemma deref_alter_ne f l l' h :
  l <> l' -> deref (alter f l h) l' = deref h l'.
Proof. intros Hne. unfold deref. by rewrite list_lookup_alter_ne. Qed.

(** X9. Turning a second card that carries the symbol of the first one
    resolves the attempt at once: both cards are matched and stay face up,
    no card is left revealed, pairs and moves go up by one, no other card
    changes, no flip-back is scheduled, and the win callback is scheduled
    exactly when this was the last pair. *)
Theorem second_card_matches
    (w : World) (p : Preset) (a b : Z) (la lb : loc) :
  gameActive (gs w) = true ->
  currentDifficulty (gs w) = presetName p ->
  flippedCards (gs w) = [a] ->
  nthZ (cards (gs w)) a = Some la ->
  nthZ (cards (gs w)) b = Some lb ->
  la < length (cardObjs w) -> lb < length (cardObjs w) -> la <> lb ->
  flipped (deref (cardObjs w) lb) = false ->
  matched (deref (cardObjs w) lb) = false ->
  value (deref (cardObjs w) la) = value (deref (cardObjs w) lb) ->
  let w' := snd (handleCardClick b w) in
  fst (handleCardClick b w) = Done tt /\
  flippedCards (gs w') = [] /\
  matchedPairs (gs w') = (matchedPairs (gs w) + 1)%Z /\
  moveCount (gs w') = (moveCount (gs w) + 1)%Z /\
  deref (cardObjs w') la = set_matched true (deref (cardObjs w) la) /\
  deref (cardObjs w') lb
  = set_matched true (set_flipped true (deref (cardObjs w) lb)) /\
  (forall l, l <> la -> l <> lb -> cardObjs w' !! l = cardObjs w !! l) /\
  tasks w'
  = (if bool_decide (matchedPairs (gs w) + 1 = presetPairs p)%Z
     then <[nextHandle w := TShowWin]> (tasks w) else tasks w).
Proof.
  intros Hact Hd Hfc Ha Hb Hla Hlb Hne Hfb Hmb Hval. cbn zeta.
  assert (Hrun : exists t n,
    handleCardClick b w
    = (Done tt,
       {| gs := set_flippedCards []
                  (set_matchedPairs (matchedPairs (gs w) + 1)
                     (set_moveCount (moveCount (gs w) + 1) (gs w)));
          cardObjs := alter (set_matched true) lb
                        (alter (set_matched true) la
                           (alter (set_flipped true) lb (cardObjs w)));
          arrays := arrays w; tasks := t; nextHandle := n;
          screen := screen w; modals := modals w; random := random w;
          draws := draws w; ui := ui w |}) /\
    t = (if bool_decide (matchedPairs (gs w) + 1 = presetPairs p)%Z
         then <[nextHandle w := TShowWin]> (tasks w) else tasks w)).
  { destruct w as [[cs fc mp mc ga tm ti cd hn] co ar tk nh sc mo rn dr u].
    cbn in *. subst ga cd fc. unfold_js. cbn.
    repeat (first [ rewrite Ha | rewrite Hb
                  | rewrite lookupDifficulty_preset
                  | rewrite pairs_presetConfig
                  | rewrite Hfb | rewrite Hmb
                  | rewrite deref_alter_eq by (rewrite ?length_alter; done)
                  | rewrite deref_alter_ne by done
                  | rewrite Hval | rewrite String.eqb_refl ]; cbn).
    repeat case_bool_decide; simplify_eq; cbn;
      try (exfalso; congruence); try (exfalso; lia).
    all: do 2 eexists; split; reflexivity. }
  destruct Hrun as (t & n & -> & ->). cbn [fst snd gs cardObjs tasks].
  split; [done|]. split; [done|]. split; [done|]. split; [done|].
  split.
  { rewrite deref_alter_ne by done.
    rewrite deref_alter_eq by (by rewrite length_alter).
    by rewrite deref_alter_ne by done. }
  split.
  { rewrite deref_alter_eq by (by rewrite !length_alter).
    rewrite deref_alter_ne by done.
    by rewrite deref_alter_eq by done. }
  split; [|done].
  intros l H1 H2. by rewrite !list_lookup_alter_ne by done.
Qed.

Lemma second_card_matches_witness :
  let w := run [EStart "easy"; EClick 0] (initialWorld rndLast) in
  matchedPairs (gs (snd (handleCardClick 8 w))) = 1%Z /\
  flippedCards (gs (snd (handleCardClick 8 w))) = [].
Proof.
  cbn zeta.
  pose proof (second_card_matches
                (run [EStart "easy"; EClick 0] (initialWorld rndLast))
                Easy 0 8 0 8) as H.
  destruct H as (_ & H2 & H3 & _);
    [reflexivity..|vm_compute; lia|vm_compute; lia|lia
    |reflexivity|reflexivity|reflexivity|].
  split; [exact H3|exact H2].
Defined.

Lemma flip_then_unflip (la lb : loc) (h : list Card) :
  flipped (deref h la) = false ->
  flipped (deref h lb) = false ->
  alter (set_flipped false) lb
    (alter (set_flipped false) la
       (alter (set_flipped true) lb (alter (set_flipped true) la h)))
  = h.
Proof.
  intros Ha Hb. apply list_eq. intros i.
  rewrite !list_lookup_alter. unfold deref in Ha, Hb.
  repeat case_decide; simplify_eq;
    destruct (h !! i) as [[ci vi fi mi]|] eqn:E; cbn in *;
    rewrite ?E in *; cbn in *; simplify_eq; done.
Qed.

(** X10. A failed attempt costs one move and nothing else. After two
    face-down unmatched cards with different symbols are turned, both lie
    face up, the flip-back is the only new callback, and every further
    click on a card is ignored; once the flip-back has fired, every card
    object is exactly as it was before the attempt, no card is revealed,
    the flip-back is gone, and only the move counter has grown, by one. *)
Theorem mismatch_round_trip
    (w : World) (p : Preset) (a b : Z) (la lb : loc) :
  gameActive (gs w) = true ->
  currentDifficulty (gs w) = presetName p ->
  flippedCards (gs w) = [] ->
  nthZ (cards (gs w)) a = Some la ->
  nthZ (cards (gs w)) b = Some lb ->
  la < length (cardObjs w) -> lb < length (cardObjs w) -> la <> lb ->
  flipped (deref (cardObjs w) la) = false ->
  matched (deref (cardObjs w) la) = false ->
  flipped (deref (cardObjs w) lb) = false ->
  matched (deref (cardObjs w) lb) = false ->
  value (deref (cardObjs w) la) <> value (deref (cardObjs w) lb) ->
  let w2 := run [EClick a; EClick b] w in
  let w3 := step (EFire (nextHandle w)) w2 in
  flippedCards (gs w2) = [a; b] /\
  flipped (deref (cardObjs w2) la) = true /\
  flipped (deref (cardObjs w2) lb) = true /\
  tasks w2 = <[nextHandle w := TFlipBack la lb]> (tasks w) /\
  (forall c l, nthZ (cards (gs w2)) c = Some l ->
               handleCardClick c w2 = (Done tt, w2)) /\
  cardObjs w3 = cardObjs w /\
  flippedCards (gs w3) = [] /\
  tasks w3 !! nextHandle w = None /\
  moveCount (gs w3) = (moveCount (gs w) + 1)%Z /\
  matchedPairs (gs w3) = matchedPairs (gs w) /\
  gameActive (gs w3) = true.
Proof.
  intros Hact Hd Hfc Ha Hb Hla Hlb Hne Hfa Hma Hfb Hmb Hval. cbn zeta.
  assert (Heq : (value (deref (cardObjs w) la)
                 =? value (deref (cardObjs w) lb))%string = false)
    by (by apply String.eqb_neq).
  assert (H2 : run [EClick a; EClick b] w
    = {| gs := set_moveCount (moveCount (gs w) + 1)
                 (set_flippedCards [a; b] (gs w));
         cardObjs := alter (set_flipped true) lb
                       (alter (set_flipped true) la (cardObjs w));
         arrays := arrays w;
         tasks := <[nextHandle w := TFlipBack la lb]> (tasks w);
         nextHandle := Pos.succ (nextHandle w);
         screen := screen w; modals := modals w; random := random w;
         draws := draws w; ui := ui w |}).
  { destruct w as [[cs fc mp mc ga tm ti cd hn] co ar tk nh sc mo rn dr u].
    cbn in *. subst ga cd fc. unfold run, step. cbn [foldl handle].
    unfold_js. cbn.
    repeat (first [ rewrite Ha | rewrite Hb
                  | rewrite lookupDifficulty_preset
                  | rewrite Hfa | rewrite Hma | rewrite Hfb | rewrite Hmb
                  | rewrite deref_alter_eq by (rewrite ?length_alter; done)
                  | rewrite deref_alter_ne by done
                  | rewrite Heq ]; cbn).
    reflexivity. }
  rewrite H2. clear H2.
  unfold step. cbn [handle]. unfold fire, bind, gets.
  cbn [tasks fst snd]. rewrite lookup_insert_eq.
  unfold_js. cbn.
  rewrite flip_then_unflip by done.
  repeat split; try reflexivity.
  - rewrite deref_alter_ne by done. by rewrite deref_alter_eq by done.
  - by rewrite deref_alter_eq by (by rewrite length_alter).
  - intros c l Hc. cbn in Hc. rewrite Hact. cbn. rewrite Hc. cbn.
    by rewrite orb_true_r.
  - apply lookup_delete_eq.
  - exact Hact.
Qed.

Lemma mismatch_round_trip_witness :
  let w := run [EStart "easy"] (initialWorld rndLast) in
  cardObjs (step (EFire (nextHandle w)) (run [EClick 0; EClick 1] w))
  = cardObjs w.
Proof.
  cbn zeta.
  pose proof (mismatch_round_trip
                (run [EStart "easy"] (initialWorld rndLast))
                Easy 0 1 0 1) as H.
  destruct H as (_ & _ & _ & _ & _ & H6 & _);
    [reflexivity..|vm_compute; lia|vm_compute; lia|lia
    |reflexivity|reflexivity|reflexivity|reflexivity
    |by vm_compute|].
  exact H6.
Defined.

(** ** After the win display *)

Lemma fire_absent h w : tasks w !! h = None -> fire h w = (Done tt, w).
Proof. intros H. unfold fire, bind, gets. cbn. by rewrite H. Qed.

(** X11. Once the win callback has fired the game is frozen: every click,
    with any id, and every hint request leave the world as it is, and so
    does the firing of the handle of the interval that was recorded when
    the callback ran. *)
Theorem frozen_after_win (w : World) (h : positive) (p : Preset) :
  tasks w !! h = Some TShowWin ->
  currentDifficulty (gs w) = presetName p ->
  let w' := snd (fire h w) in
  (forall cardId, handleCardClick cardId w' = (Done tt, w')) /\
  hint w' = (Done tt, w') /\
  (forall t, timerInterval (gs w) = Some t -> fire t w' = (Done tt, w')).
Proof.
  intros Hh Hd. cbn zeta.
  destruct (win_callback w h p Hh Hd) as (_ & Hact & _ & Hgone & _).
  split; [|split].
  - intros cardId. apply click_ignored. by left.
  - unfold hint, bind, gets. rewrite Hact. by rewrite orb_true_r.
  - intros t Ht. apply fire_absent. by apply Hgone.
Qed.

Lemma frozen_after_win_witness :
  let w := run allPairsTrace (initialWorld rndLast) in
  let w' := snd (fire 2 w) in
  (forall cardId, handleCardClick cardId w' = (Done tt, w')) /\
  hint w' = (Done tt, w') /\
  (forall t, timerInterval (gs w) = Some t -> fire t w' = (Done tt, w')).
Proof.
  apply (frozen_after_win (run allPairsTrace (initialWorld rndLast))
           2%positive Easy); by vm_compute.
Defined.

(** X12. For a preset and non-negative clock and move counter, the score
    shown lies between the bonus of the difficulty and that bonus plus 300
    plus ten times the number of pairs; it is exactly the bonus once 300
    seconds have passed and ten moves per pair have been made. *)
Theorem score_bounds (w : World) (p : Preset) :
  currentDifficulty (gs w) = presetName p ->
  (0 <= timer (gs w))%Z ->
  (0 <= moveCount (gs w))%Z ->
  exists s,
    ui (snd (showWinScreen w))
    = ui w ++ [UiWin (timer (gs w)) (moveCount (gs w)) (Some s)] /\
    (specDifficultyBonus p <= s
     <= specDifficultyBonus p + 300 + 10 * presetPairs p)%Z /\
    ((300 <= timer (gs w))%Z ->
     (10 * presetPairs p <= moveCount (gs w))%Z ->
     s = specDifficultyBonus p).
Proof.
  intros Hd Ht Hm.
  destruct w as [[cs fc mp mc ga tm ti cd hn] co ar tk nh sc mo rn dr u].
  cbn in *. subst cd.
  exists (Z.max 0 (300 - tm) + Z.max 0 (presetPairs p * 10 - mc)
          + specDifficultyBonus p)%Z.
  split; [|destruct p; cbn; lia].
  unfold_js. unfold totalScore, moveBonus, timeBonus.
  destruct ti as [t|]; cbn; rewrite lookupDifficulty_preset; cbn;
    rewrite difficultyBonus_preset, pairs_presetConfig; done.
Qed.

Lemma score_bounds_witness :
  exists s,
    ui (snd (showWinScreen
               (set_gs (set_moveCount 200 (set_timer 400 (freshState "hard")))
                  (initialWorld rndLast))))
    = [UiWin 400 200 (Some s)] /\ s = 300%Z.
Proof.
  destruct (score_bounds
              (set_gs (set_moveCount 200 (set_timer 400 (freshState "hard")))
                 (initialWorld rndLast)) Hard)
    as (s & Hs & _ & Hlow); [reflexivity|cbn; lia|cbn; lia|].
  exists s. split; [exact Hs|]. apply Hlow; cbn; lia.
Defined.

(** ** Hints, when a pair is there *)

Lemma specHintPair_Some U :
  ¬ NoDup (map value U) -> is_Some (specHintPair U).
Proof.
  induction U as [|c U IH]; cbn [map specHintPair].
  - intros H. destruct H. constructor.
  - intros H. destruct (idsOf (value c) U) as [|j rest] eqn:E; [|done].
    apply IH. intros Hnd. apply H. apply NoDup_cons. split; [|done].
    intros Hin. apply list_elem_of_fmap in Hin as (c' & Hv & Hc').
    assert (Hj : id c' ∈ idsOf (value c) U)
      by (apply elem_of_idsOf; eauto).
    rewrite E in Hj. by apply not_elem_of_nil in Hj.
Qed.

(** X13. In an active game with hints left, [hint] highlights a pair as
    soon as two face-down unmatched cards share a symbol: two cards are
    highlighted and one hint is used. Together with the case where no two
    share a symbol, a hint is given exactly when a pair can be shown. *)
Theorem hint_given_when_pair_exists (w : World) :
  ids_are_positions w ->
  symbols_from_alphabet w ->
  gameActive (gs w) = true ->
  (0 < hints (gs w))%Z ->
  ¬ NoDup (map value (candidates w)) ->
  exists a b,
    fst (hint w) = Done tt /\
    ui (snd (hint w)) = ui w ++ [UiHint a; UiHint b] /\
    hints (gs (snd (hint w))) = (hints (gs w) - 1)%Z.
Proof.
  intros Hpos _ Hact Hh Hdup.
  destruct (specHintPair_Some _ Hdup) as [l Hl].
  assert (Hlen : 2 <= length (candidates w)).
  { destruct (candidates w) as [|c1 [|c2 U]]; cbn; try lia.
    - destruct Hdup. constructor.
    - destruct Hdup. cbn. apply NoDup_singleton. }
  destruct (hint_cases w Hpos) as [Hno|(a & b & _ & _ & ->)].
  - exfalso. revert Hno. unfold hint, bind, gets.
    rewrite Hact, (proj2 (Z.leb_gt _ _) Hh). cbn. fold (candidates w).
    rewrite (proj2 (Nat.leb_gt _ _)) by lia.
    rewrite findHintPair_flowerGroupsOf, Hl.
    destruct (specHintPair_sound _ _ (ascending_candidates _ Hpos) Hl)
      as (ca & cb & -> & Ha & Hb & _).
    destruct (candidate_id_valid _ _ Hpos Ha) as [la Hla].
    destruct (candidate_id_valid _ _ Hpos Hb) as [lb Hlb].
    cbn. unfold highlight, bind, gets, logUi, modify, setTimer, modify_gs.
    cbn. rewrite Hla. cbn. rewrite Hlb. cbn.
    intros [= Hw]. apply (f_equal (fun w => length (ui w))) in Hw.
    cbn in Hw. rewrite !length_app in Hw. cbn in Hw. lia.
  - exists a, b. cbn. by rewrite <- app_assoc.
Qed.

Lemma hint_given_when_pair_exists_witness :
  let w := run [EStart "easy"; EClick 0] (initialWorld rndLast) in
  exists a b,
    fst (hint w) = Done tt /\
    ui (snd (hint w)) = ui w ++ [UiHint a; UiHint b] /\
    hints (gs (snd (hint w))) = (hints (gs w) - 1)%Z.
Proof.
  apply hint_given_when_pair_exists.
  - reflexivity.
  - apply (bool_decide_unpack
             (Forall (fun c => value c ∈ flowers)
                (deck (run [EStart "easy"; EClick 0] (initialWorld rndLast))))).
    vm_compute. exact I.
  - reflexivity.
  - reflexivity.
  - apply (bool_decide_unpack
             (¬ NoDup (map value (candidates
                (run [EStart "easy"; EClick 0] (initialWorld rndLast)))))).
    vm_compute. exact I.
Defined.

(** ** Card objects outside the deck *)

Lemma nthZ_elem {A} (l : list A) i x : nthZ l i = Some x -> x ∈ l.
Proof.
  unfold nthZ. destruct (0 <=? i)%Z; [|done].
  intros H. apply list_elem_of_lookup. eauto.
Qed.

Ltac outside_tac Hl :=
  cbn in *;
  repeat match goal with
         | |- context [alter ?f ?l0 ?h !! ?l] =>
             rewrite (list_lookup_alter_ne f h l0 l)
               by (intros ->; apply Hl; eapply nthZ_elem; eassumption)
         end;
  try reflexivity.

(** X14. Clicks, hints, ticks, the win display and quitting never touch a
    card object that does not belong to the current deck: the cards of an
    earlier game, still held by a pending flip-back, can only be changed
    by that flip-back. *)
Theorem cards_outside_deck_untouched (e : Event) (w : World) (l : loc) :
  startsSession e = false ->
  (forall h a b, e = EFire h -> tasks w !! h <> Some (TFlipBack a b)) ->
  l ∉ cards (gs w) ->
  cardObjs (step e w) !! l = cardObjs w !! l.
Proof.
  intros Hs Hfb Hl. event_cases e w; try done.
  - js_cases; outside_tac Hl.
  - js_cases; outside_tac Hl.
  - js_cases;
      try (exfalso; eapply Hfb; [reflexivity|eassumption]);
      outside_tac Hl.
Qed.

Lemma cards_outside_deck_untouched_witness :
  cardObjs (step (EClick 0) newSession) !! 0 = cardObjs newSession !! 0.
Proof.
  apply (cards_outside_deck_untouched (EClick 0) newSession 0).
  - reflexivity.
  - intros h a b H. discriminate H.
  - apply (bool_decide_unpack (0 ∉ cards (gs newSession))).
    vm_compute. exact I.
Defined.

(** ** The back button *)

(** X15. During an active game on the game screen the back button only
    opens the quit modal: the session, the timer, the pending callbacks
    and the screen stay as they are. In every other situation it shows the
    main screen and stops the timer, leaving cards, counters and
    [gameActive] alone. *)
Theorem onPopState_asks_or_leaves (w : World) :
  (screen w = "game-screen" -> gameActive (gs w) = true ->
   onPopState w = (Done tt, set_modals ({["quit-modal"]} ∪ modals w) w)) /\
  (screen w <> "game-screen" \/ gameActive (gs w) = false ->
   let w' := snd (onPopState w) in
   fst (onPopState w) = Done tt /\
   screen w' = "main-screen" /\
   gs w' = set_timerInterval None (gs w) /\
   tasks w' = match timerInterval (gs w) with
              | Some h => delete h (tasks w)
              | None => tasks w
              end /\
   cardObjs w' = cardObjs w /\ modals w' = modals w /\ ui w' = ui w).
Proof.
  split.
  - intros Hs Ha. unfold onPopState, bind, gets. cbn.
    rewrite Hs, Ha. reflexivity.
  - intros Hc. cbn zeta.
    assert (Hcond : (screen w =? "game-screen")%string && gameActive (gs w)
                    = false).
    { destruct Hc as [Hs|Ha]; [|by rewrite Ha, andb_false_r].
      apply String.eqb_neq in Hs. by rewrite Hs. }
    unfold onPopState, bind, gets. cbn. rewrite Hcond.
    destruct w as [[cs fc mp mc ga tm [h|] cd hn] co ar tk nh sc mo rn dr u];
      cbn; done.
Qed.

Lemma onPopState_asks_or_leaves_witness :
  let w := run [EStart "easy"; EClick 0] (initialWorld rndLast) in
  onPopState w = (Done tt, set_modals ({["quit-modal"]} ∪ modals w) w).
Proof.
  cbn zeta.
  apply (proj1 (onPopState_asks_or_leaves
                  (run [EStart "easy"; EClick 0] (initialWorld rndLast))));
    reflexivity.
Defined.

(** ** The state of a game stays consistent *)

Lemma flipped_alter_flipped b l h l' :
  l < length h ->
  flipped (deref (alter (set_flipped b) l h) l')
  = if decide (l = l') then b else flipped (deref h l').
Proof.
  intros Hl. case_decide as E.
  - subst. by rewrite deref_alter_eq.
  - by rewrite deref_alter_ne.
Qed.

Lemma matched_alter_flipped b l h l' :
  matched (deref (alter (set_flipped b) l h) l') = matched (deref h l').
Proof.
  unfold deref. rewrite list_lookup_alter.
  case_decide as E; [subst|done]. by destruct (h !! l').
Qed.

Lemma flipped_alter_matched b l h l' :
  flipped (deref (alter (set_matched b) l h) l') = flipped (deref h l').
Proof.
  unfold deref. rewrite list_lookup_alter.
  case_decide as E; [subst|done]. by destruct (h !! l').
Qed.

Lemma matched_alter_matched b l h l' :
  l < length h ->
  matched (deref (alter (set_matched b) l h) l')
  = if decide (l = l') then b else matched (deref h l').
Proof.
  intros Hl. case_decide as E.
  - subst. by rewrite deref_alter_eq.
  - by rewrite deref_alter_ne.
Qed.

Lemma nthZ_inj {A} (l : list A) i j x :
  NoDup l -> nthZ l i = Some x -> nthZ l j = Some x -> i = j.
Proof.
  unfold nthZ. intros Hnd.
  destruct (0 <=? i)%Z eqn:Ei; [|done].
  destruct (0 <=? j)%Z eqn:Ej; [|done].
  intros Hi Hj. pose proof (NoDup_lookup _ _ _ _ Hnd Hi Hj). lia.
Qed.

Lemma matchedCount_eq w :
  matchedCount w
  = length (List.filter (fun l => matched (deref (cardObjs w) l))
              (cards (gs w))).
Proof.
  unfold matchedCount, deck.
  induction (cards (gs w)) as [|l cs IH]; [done|]. cbn.
  destruct (matched (deref (cardObjs w) l)); cbn; by rewrite IH.
Qed.

Lemma count_ext (f g : loc -> bool) cs :
  (forall l, l ∈ cs -> f l = g l) ->
  length (List.filter f cs) = length (List.filter g cs).
Proof.
  induction cs as [|l cs IH]; intros H; [done|]. cbn.
  rewrite (H l) by left.
  assert (IH' := IH (fun l' Hl' => H l' (list_elem_of_further _ _ _ Hl'))).
  destruct (g l); cbn; by rewrite IH'.
Qed.

(** Setting a flag that was clear on one card of a duplicate-free list
    adds one to the count. *)
Lemma count_set (f g : loc -> bool) cs l0 :
  NoDup cs -> l0 ∈ cs -> f l0 = false -> g l0 = true ->
  (forall l, l <> l0 -> g l = f l) ->
  length (List.filter g cs) = S (length (List.filter f cs)).
Proof.
  induction cs as [|l cs IH]; intros Hnd Hin Hf Hg Hother.
  - by apply not_elem_of_nil in Hin.
  - apply NoDup_cons in Hnd as [Hnotin Hnd]. cbn.
    apply elem_of_cons in Hin as [->|Hin].
    + rewrite Hf, Hg. cbn. f_equal. apply count_ext.
      intros l' Hl'. apply Hother. intros ->. done.
    + assert (l <> l0) by (intros ->; done).
      rewrite (Hother l) by done.
      pose proof (IH Hnd Hin Hf Hg Hother) as IH'.
      destruct (f l); cbn; by rewrite IH'.
Qed.

(** A world that differs only in what the invariant does not look at, and
    has no flip-back that was not there before, inherits consistency. *)
Lemma consistent_frame w w' :
  cards (gs w') = cards (gs w) ->
  cardObjs w' = cardObjs w ->
  flippedCards (gs w') = flippedCards (gs w) ->
  matchedPairs (gs w') = matchedPairs (gs w) ->
  (forall h la lb, tasks w' !! h = Some (TFlipBack la lb) ->
                   tasks w !! h = Some (TFlipBack la lb)) ->
  consistent w -> consistent w'.
Proof.
  intros Hc Ho Hf Hm Ht (H1 & H2 & H3 & H4 & H5 & H6 & H7 & H8).
  unfold consistent, matchedCount, deck in *.
  rewrite Hc, Ho, Hf, Hm. split_and!; try done.
  - intros h la lb Hh. apply (H6 h). by apply Ht.
  - intros h h' la lb la' lb' Hh Hh'. eapply H7; by apply Ht.
Qed.

Lemma consistent_startGame d w :
  noFlipBackPending w -> consistent (snd (startGame d w)).
Proof.
  intros Hno.
  destruct (startGame_shape d w) as [[_ ->]|[_ ->]]; cbn [snd].
  - unfold consistent, matchedCount, deck. cbn. split_and!.
    + constructor.
    + constructor.
    + intros l Hl. by apply not_elem_of_nil in Hl.
    + intros i. split.
      * intros Hi. by apply not_elem_of_nil in Hi.
      * intros (l & Hl & _). unfold nthZ in Hl.
        destruct (0 <=? i)%Z; done.
    + constructor.
    + intros h la lb Hh. by destruct (Hno h la lb).
    + intros h h' la lb la' lb' Hh. by destruct (Hno h la lb).
    + done.
  - pose proof (deck_afterStartOf d w) as [ys Hdeck].
    assert (Hflags : forall l, l ∈ cards (gs (afterStartOf d w)) ->
              flipped (deref (cardObjs (afterStartOf d w)) l) = false /\
              matched (deref (cardObjs (afterStartOf d w)) l) = false).
    { intros l Hl.
      assert (Hc : deref (cardObjs (afterStartOf d w)) l
                   ∈ deck (afterStartOf d w))
        by (unfold deck; apply list_elem_of_fmap; eauto).
      rewrite Hdeck in Hc. apply list_elem_of_lookup in Hc as [i Hi].
      rewrite list_lookup_imap in Hi.
      destruct (ys !! i); simplify_eq/=. by rewrite <- Hi. }
    unfold consistent. split_and!.
    + cbn. apply NoDup_seq.
    + cbn. apply Forall_forall. intros l Hl.
      apply elem_of_seq in Hl. rewrite length_app, length_imap. lia.
    + intros l Hl Hm. destruct (Hflags l Hl). congruence.
    + intros i. split.
      * intros Hi. cbn in Hi. by apply not_elem_of_nil in Hi.
      * intros (l & Hl & Hf & _). apply nthZ_elem in Hl.
        destruct (Hflags l Hl). congruence.
    + cbn. constructor.
    + intros h la lb Hh. cbn in Hh.
      apply lookup_insert_Some in Hh as [[_ ?]|[_ Hh]]; [done|].
      by destruct (Hno h la lb).
    + intros h h' la lb la' lb' Hh. cbn in Hh.
      apply lookup_insert_Some in Hh as [[_ ?]|[_ Hh]]; [done|].
      by destruct (Hno h la lb).
    + rewrite matchedCount_eq.
      rewrite (count_ext _ (fun _ => false)).
      * cbn. by induction (seq _ _).
      * intros l Hl. by destruct (Hflags l Hl).
Qed.

Lemma consistent_revealed_card w a la :
  consistent w ->
  a ∈ flippedCards (gs w) ->
  nthZ (cards (gs w)) a = Some la ->
  flipped (deref (cardObjs w) la) = true /\
  matched (deref (cardObjs w) la) = false /\
  la ∈ cards (gs w) /\ la < length (cardObjs w).
Proof.
  intros (H1 & H2 & H3 & H4 & _) Ha Hla.
  apply H4 in Ha as (l & Hl & Hf & Hm).
  assert (l = la) as -> by congruence.
  pose proof (nthZ_elem _ _ _ Hla) as Hin.
  split_and!; try done.
  by apply (proj1 (Forall_forall _ _) H2).
Qed.

Lemma fire_flipBack w h la lb :
  tasks w !! h = Some (TFlipBack la lb) ->
  fire h w
  = (Done tt,
     withGame (set_flippedCards [] (gs w))
       (alter (set_flipped false) lb
          (alter (set_flipped false) la (cardObjs w)))
       (delete h (tasks w)) (nextHandle w) w).
Proof.
  intros Hh. unfold fire, bind, gets. cbn. rewrite Hh.
  destruct w as [g co ar tk nh sc mo rn dr u]. reflexivity.
Qed.

Lemma consistent_flipBack w h la lb :
  consistent w ->
  tasks w !! h = Some (TFlipBack la lb) ->
  consistent (snd (fire h w)).
Proof.
  intros Hc Hh. rewrite (fire_flipBack _ _ _ _ Hh). cbn [snd].
  pose proof Hc as (H1 & H2 & H3 & H4 & H5 & H6 & H7 & H8).
  destruct (H6 _ _ _ Hh) as (a & b & Hfc & Hna & Hnb).
  destruct (consistent_revealed_card w a la Hc) as (Hfa & Hma & Hia & Hva);
    [rewrite Hfc; left|done|].
  destruct (consistent_revealed_card w b lb Hc) as (Hfb & Hmb & Hib & Hvb);
    [rewrite Hfc; right; left|done|].
  assert (Hfl : forall l,
    flipped (deref (alter (set_flipped false) lb
                      (alter (set_flipped false) la (cardObjs w))) l)
    = if decide (lb = l) then false
      else if decide (la = l) then false
      else flipped (deref (cardObjs w) l)).
  { intros l. rewrite flipped_alter_flipped by (by rewrite length_alter).
    by rewrite flipped_alter_flipped by done. }
  assert (Hml : forall l,
    matched (deref (alter (set_flipped false) lb
                      (alter (set_flipped false) la (cardObjs w))) l)
    = matched (deref (cardObjs w) l)).
  { intros l. by rewrite !matched_alter_flipped. }
  unfold consistent, withGame. cbn [gs cardObjs tasks cards flippedCards
                                      matchedPairs set_flippedCards].
  split_and!.
  - done.
  - by rewrite !length_alter.
  - intros l Hl. rewrite Hml, Hfl. intros Hm.
    repeat case_decide; subst; try congruence. by apply H3.
  - intros i. split; [intros Hi; by apply not_elem_of_nil in Hi|].
    intros (l & Hl & Hf & Hm). rewrite Hfl in Hf. rewrite Hml in Hm.
    repeat case_decide; try done.
    assert (Hi : i ∈ flippedCards (gs w)) by (apply H4; eauto).
    rewrite Hfc in Hi.
    apply elem_of_cons in Hi as [->|Hi]; [congruence|].
    apply list_elem_of_singleton in Hi as ->. congruence.
  - constructor.
  - intros h' x y Hh'. apply lookup_delete_Some in Hh' as [Hne Hh'].
    destruct Hne. by eapply H7.
  - intros h1 h2 x y x' y' Hh1 Hh2.
    apply lookup_delete_Some in Hh1 as [_ Hh1].
    apply lookup_delete_Some in Hh2 as [_ Hh2]. by eapply H7.
  - rewrite <- H8. f_equal. rewrite !matchedCount_eq. cbn.
    apply count_ext. intros l _. apply Hml.
Qed.

(** The outcomes of a click, for a card that may be turned. *)
Lemma click_cases w b lb :
  gameActive (gs w) = true ->
  nthZ (cards (gs w)) b = Some lb ->
  lb < length (cardObjs w) ->
  flipped (deref (cardObjs w) lb) = false ->
  matched (deref (cardObjs w) lb) = false ->
  let co1 := alter (set_flipped true) lb (cardObjs w) in
  match flippedCards (gs w) with
  | [] =>
      snd (handleCardClick b w)
      = withGame (set_flippedCards [b] (gs w)) co1
          (tasks w) (nextHandle w) w
  | [a] =>
      forall la,
        nthZ (cards (gs w)) a = Some la ->
        la < length (cardObjs w) -> la <> lb ->
        let g1 := set_moveCount (moveCount (gs w) + 1)
                    (set_flippedCards [a; b] (gs w)) in
        snd (handleCardClick b w)
        = withGame g1 co1 (tasks w) (nextHandle w) w \/
        snd (handleCardClick b w)
        = withGame g1 co1
            (<[nextHandle w := TFlipBack la lb]> (tasks w))
            (Pos.succ (nextHandle w)) w \/
        exists t n,
          snd (handleCardClick b w)
          = withGame
              (set_flippedCards []
                 (set_matchedPairs (matchedPairs (gs w) + 1) g1))
              (alter (set_matched true) lb
                 (alter (set_matched true) la co1)) t n w /\
          (forall h x y, t !! h = Some (TFlipBack x y) ->
                         tasks w !! h = Some (TFlipBack x y))
  | _ => snd (handleCardClick b w) = w
  end.
Proof.
  intros Hact Hb Hlb Hfb Hmb co1.
  destruct w as [[cs fc mp mc ga tm ti cd hn] co ar tk nh sc mo rn dr u].
  cbn in *. subst ga. subst co1.
  destruct fc as [|a [|a2 fc]].
  - unfold_js. cbn. rewrite Hb. cbn. rewrite Hfb, Hmb. reflexivity.
  - intros la Ha Hla Hne. unfold_js. cbn. rewrite Hb. cbn.
    rewrite Hfb, Hmb. cbn.
    destruct (lookupDifficulty cd) as [| |c] eqn:Ecfg; cbn.
    + by left.
    + rewrite Ha. cbn. rewrite Hb. cbn.
      destruct (String.eqb _ _); cbn; rewrite ?Ecfg; cbn.
      * right. right. do 2 eexists. split; [reflexivity|done].
      * right. by left.
    + rewrite Ha. cbn. rewrite Hb. cbn.
      destruct (String.eqb _ _); cbn; rewrite ?Ecfg; cbn.
      * right. right. case_bool_decide; cbn.
        -- do 2 eexists. split; [reflexivity|].
           intros h x y Hh. cbn in Hh.
           apply lookup_insert_Some in Hh as [[_ ?]|[_ Hh]]; done.
        -- do 2 eexists. split; [reflexivity|done].
      * right. by left.
  - unfold_js. cbn. rewrite Hb. cbn. by rewrite orb_true_r.
Qed.

Lemma consistent_no_flipBack w :
  consistent w -> length (flippedCards (gs w)) <> 2 -> noFlipBackPending w.
Proof.
  intros (_ & _ & _ & _ & _ & H6 & _) Hlen h la lb Hh.
  destruct (H6 _ _ _ Hh) as (a & b & Hfc & _). by rewrite Hfc in Hlen.
Qed.

Lemma consistent_first_card w b lb :
  consistent w ->
  flippedCards (gs w) = [] ->
  nthZ (cards (gs w)) b = Some lb ->
  flipped (deref (cardObjs w) lb) = false ->
  matched (deref (cardObjs w) lb) = false ->
  consistent
    (withGame (set_flippedCards [b] (gs w))
       (alter (set_flipped true) lb (cardObjs w))
       (tasks w) (nextHandle w) w).
Proof.
  intros Hc Hfc Hb Hfb Hmb.
  pose proof (consistent_no_flipBack w Hc) as Hno.
  rewrite Hfc in Hno. specialize (Hno ltac:(done)).
  destruct Hc as (H1 & H2 & H3 & H4 & H5 & H6 & H7 & H8).
  pose proof (nthZ_elem _ _ _ Hb) as Hin.
  pose proof (proj1 (Forall_forall _ _) H2 _ Hin) as Hlb.
  unfold consistent, withGame.
  cbn [gs cardObjs tasks cards flippedCards matchedPairs set_flippedCards].
  split_and!.
  - done.
  - by rewrite length_alter.
  - intros l Hl. rewrite matched_alter_flipped.
    rewrite flipped_alter_flipped by done. intros Hm.
    case_decide; [done|]. by apply H3.
  - intros i. split.
    + intros Hi. apply list_elem_of_singleton in Hi as ->.
      exists lb. rewrite matched_alter_flipped.
      rewrite flipped_alter_flipped by done.
      split_and!; [done| |done]. by case_decide.
    + intros (l & Hl & Hf & Hm). rewrite matched_alter_flipped in Hm.
      rewrite flipped_alter_flipped in Hf by done.
      case_decide as E.
      * subst l. rewrite (nthZ_inj _ _ _ _ H1 Hl Hb). left.
      * assert (Hi : i ∈ flippedCards (gs w)) by (apply H4; eauto).
        rewrite Hfc in Hi. by apply not_elem_of_nil in Hi.
  - apply NoDup_singleton.
  - intros h x y Hh. by destruct (Hno h x y).
  - intros h h' x y x' y' Hh. by destruct (Hno h x y).
  - rewrite <- H8. f_equal. rewrite !matchedCount_eq. cbn.
    apply count_ext. intros l _. apply matched_alter_flipped.
Qed.

Lemma consistent_second_card w a b la lb g1 t n h0 :
  consistent w ->
  flippedCards (gs w) = [a] ->
  nthZ (cards (gs w)) a = Some la ->
  nthZ (cards (gs w)) b = Some lb ->
  flipped (deref (cardObjs w) lb) = false ->
  matched (deref (cardObjs w) lb) = false ->
  cards g1 = cards (gs w) ->
  flippedCards g1 = [a; b] ->
  matchedPairs g1 = matchedPairs (gs w) ->
  (forall h x y, t !! h = Some (TFlipBack x y) ->
                 h = h0 /\ x = la /\ y = lb) ->
  consistent
    (withGame g1 (alter (set_flipped true) lb (cardObjs w)) t n w).
Proof.
  intros Hc Hfc Ha Hb Hfb Hmb Hg1 Hg2 Hg3 Ht.
  destruct (consistent_revealed_card w a la Hc) as (Hfa & Hma & Hia & Hva);
    [rewrite Hfc; left|done|].
  destruct Hc as (H1 & H2 & H3 & H4 & H5 & H6 & H7 & H8).
  pose proof (nthZ_elem _ _ _ Hb) as Hin.
  pose proof (proj1 (Forall_forall _ _) H2 _ Hin) as Hlb.
  assert (Hab : a <> b) by (intros ->; congruence).
  unfold consistent, withGame. cbn [gs cardObjs tasks].
  rewrite Hg1, Hg2, Hg3. split_and!.
  - done.
  - by rewrite length_alter.
  - intros l Hl. rewrite matched_alter_flipped.
    rewrite flipped_alter_flipped by done. intros Hm.
    case_decide; [done|]. by apply H3.
  - intros i. split.
    + intros Hi. apply elem_of_cons in Hi as [->|Hi].
      * exists la. rewrite matched_alter_flipped.
        rewrite flipped_alter_flipped by done.
        split_and!; [done| |done]. by case_decide.
      * apply list_elem_of_singleton in Hi as ->.
        exists lb. rewrite matched_alter_flipped.
        rewrite flipped_alter_flipped by done.
        split_and!; [done| |done]. by case_decide.
    + intros (l & Hl & Hf & Hm). rewrite matched_alter_flipped in Hm.
      rewrite flipped_alter_flipped in Hf by done.
      case_decide as E.
      * subst l. rewrite (nthZ_inj _ _ _ _ H1 Hl Hb). right. left.
      * assert (Hi : i ∈ flippedCards (gs w)) by (apply H4; eauto).
        rewrite Hfc in Hi. apply list_elem_of_singleton in Hi as ->. left.
  - apply NoDup_cons. split; [|apply NoDup_singleton].
    intros Hi. by apply list_elem_of_singleton in Hi.
  - intros h x y Hh. destruct (Ht _ _ _ Hh) as (_ & -> & ->).
    by exists a, b.
  - intros h h' x y x' y' Hh Hh'.
    destruct (Ht _ _ _ Hh) as (-> & _). by destruct (Ht _ _ _ Hh') as (-> & _).
  - rewrite <- H8. f_equal. unfold matchedCount, deck. cbn.
    rewrite Hg1.
    change (matchedCount (set_cardObjs
              (alter (set_flipped true) lb (cardObjs w)) w) = matchedCount w).
    rewrite !matchedCount_eq. cbn.
    apply count_ext. intros l _. apply matched_alter_flipped.
Qed.

Lemma consistent_match w a b la lb g1 t n :
  consistent w ->
  flippedCards (gs w) = [a] ->
  nthZ (cards (gs w)) a = Some la ->
  nthZ (cards (gs w)) b = Some lb ->
  flipped (deref (cardObjs w) lb) = false ->
  matched (deref (cardObjs w) lb) = false ->
  cards g1 = cards (gs w) ->
  flippedCards g1 = [] ->
  matchedPairs g1 = (matchedPairs (gs w) + 1)%Z ->
  (forall h x y, t !! h = Some (TFlipBack x y) ->
                 tasks w !! h = Some (TFlipBack x y)) ->
  consistent
    (withGame g1
       (alter (set_matched true) lb
          (alter (set_matched true) la
             (alter (set_flipped true) lb (cardObjs w)))) t n w).
Proof.
  intros Hc Hfc Ha Hb Hfb Hmb Hg1 Hg2 Hg3 Ht.
  destruct (consistent_revealed_card w a la Hc) as (Hfa & Hma & Hia & Hva);
    [rewrite Hfc; left|done|].
  pose proof (consistent_no_flipBack w Hc) as Hno.
  rewrite Hfc in Hno. specialize (Hno ltac:(done)).
  destruct Hc as (H1 & H2 & H3 & H4 & H5 & H6 & H7 & H8).
  pose proof (nthZ_elem _ _ _ Hb) as Hin.
  pose proof (proj1 (Forall_forall _ _) H2 _ Hin) as Hlb.
  assert (Hne : la <> lb) by (intros ->; congruence).
  set (co' := alter (set_matched true) lb
                (alter (set_matched true) la
                   (alter (set_flipped true) lb (cardObjs w)))).
  assert (Hfl : forall l, flipped (deref co' l)
            = if decide (lb = l) then true
              else flipped (deref (cardObjs w) l)).
  { intros l. unfold co'. rewrite !flipped_alter_matched.
    by rewrite flipped_alter_flipped by done. }
  assert (Hml : forall l, matched (deref co' l)
            = if decide (lb = l) then true
              else if decide (la = l) then true
              else matched (deref (cardObjs w) l)).
  { intros l. unfold co'.
    rewrite matched_alter_matched by (by rewrite !length_alter).
    rewrite matched_alter_matched by (by rewrite !length_alter).
    by rewrite matched_alter_flipped. }
  unfold consistent, withGame. cbn [gs cardObjs tasks].
  rewrite Hg1, Hg2, Hg3. split_and!.
  - done.
  - unfold co'. by rewrite !length_alter.
  - intros l Hl. rewrite Hml, Hfl. intros Hm.
    repeat case_decide; subst; try done. by apply H3.
  - intros i. split; [intros Hi; by apply not_elem_of_nil in Hi|].
    intros (l & Hl & Hf & Hm). rewrite Hfl in Hf. rewrite Hml in Hm.
    repeat case_decide; try done.
    assert (Hi : i ∈ flippedCards (gs w)) by (apply H4; eauto).
    rewrite Hfc in Hi. apply list_elem_of_singleton in Hi as ->.
    congruence.
  - constructor.
  - intros h x y Hh. by destruct (Hno h x y (Ht _ _ _ Hh)).
  - intros h h' x y x' y' Hh. by destruct (Hno h x y (Ht _ _ _ Hh)).
  - assert (Hcount : matchedCount (withGame g1 co' t n w)
                     = S (S (matchedCount w))).
    { rewrite !matchedCount_eq. cbn [gs cardObjs withGame]. rewrite Hg1.
      rewrite (count_set
                 (fun l => if decide (la = l) then true
                           else matched (deref (cardObjs w) l))
                 (fun l => matched (deref co' l)) _ lb H1 Hin).
      - f_equal.
        apply (count_set _ _ _ la H1 Hia Hma).
        + by case_decide.
        + intros l Hl. by case_decide.
      - by case_decide.
      - rewrite Hml. by case_decide.
      - intros l Hl. rewrite Hml. by case_decide. }
    unfold withGame in Hcount. rewrite Hcount. lia.
Qed.

Lemma consistent_click b w :
  consistent w -> consistent (snd (handleCardClick b w)).
Proof.
  intros Hc.
  destruct (gameActive (gs w)) eqn:Hact;
    [|by rewrite click_ignored by (by left)].
  destruct (nthZ (cards (gs w)) b) as [lb|] eqn:Hb; last first.
  { unfold handleCardClick, bind, gets, cardAt. rewrite Hact. cbn.
    by rewrite Hb. }
  destruct (flipped (deref (cardObjs w) lb)) eqn:Hfb.
  { rewrite click_ignored; [done|]. right. exists lb. auto. }
  destruct (matched (deref (cardObjs w) lb)) eqn:Hmb.
  { rewrite click_ignored; [done|]. right. exists lb. auto. }
  pose proof Hc as (H1 & H2 & H3 & H4 & H5 & H6 & H7 & H8).
  pose proof (proj1 (Forall_forall _ _) H2 _ (nthZ_elem _ _ _ Hb)) as Hlb.
  pose proof (click_cases w b lb Hact Hb Hlb Hfb Hmb) as Hcases.
  cbn zeta in Hcases.
  destruct (flippedCards (gs w)) as [|a [|a2 fc]] eqn:Hfc.
  - rewrite Hcases. by apply consistent_first_card.
  - assert (Ha : a ∈ flippedCards (gs w)) by (rewrite Hfc; left).
    assert (Ha' : a ∈ [a]) by left. apply H4 in Ha' as (la & Hla & _).
    destruct (consistent_revealed_card w a la Hc Ha Hla)
      as (Hfa & Hma & Hia & Hva).
    assert (Hne : la <> lb) by (intros ->; congruence).
    pose proof (consistent_no_flipBack w Hc) as Hno.
    rewrite Hfc in Hno. specialize (Hno ltac:(done)).
    destruct (Hcases la Hla Hva Hne) as [->|[->|(t & n & -> & Ht)]].
    + apply (consistent_second_card w a b la lb _ _ _ 1%positive);
        try done.
      intros h x y Hh. by destruct (Hno h x y).
    + apply (consistent_second_card w a b la lb _ _ _ (nextHandle w));
        try done.
      intros h x y Hh.
      apply lookup_insert_Some in Hh as [[<- [= <- <-]]|[_ Hh]]; [done|].
      by destruct (Hno h x y).
    + by apply (consistent_match w a b la lb).
  - by rewrite Hcases.
Qed.

Ltac frame_tac w :=
  apply (consistent_frame w);
  [ reflexivity | reflexivity | reflexivity | reflexivity
  | let Hh := fresh "Hh" in
    intros ? ? ? Hh; cbn in Hh;
    repeat match type of Hh with
           | <[_ := _]> _ !! _ = Some _ =>
               apply lookup_insert_Some in Hh as [[_ ?]|[_ Hh]];
               [discriminate|]
           | delete _ _ !! _ = Some _ =>
               apply lookup_delete_Some in Hh as [_ Hh]
           end;
    exact Hh
  | assumption ].

Lemma consistent_step e w :
  startsSession e = false -> consistent w -> consistent (step e w).
Proof.
  intros Hs Hc. unfold step.
  destruct e as [d|i| |[|]| | | |h]; cbn [handle].
  - done.
  - by apply consistent_click.
  - destruct (hint_general w) as [->|(a & b & _ & [->| [->| ->]])];
      cbn [snd]; try done; frame_tac w.
  - done.
  - done.
  - js_cases; frame_tac w.
  - js_cases; frame_tac w.
  - js_cases; frame_tac w.
  - destruct (tasks w !! h) as [[|la lb| |c]|] eqn:Eh.
    + unfold fire, bind, gets. cbn. rewrite Eh. js_cases; frame_tac w.
    + by eapply consistent_flipBack.
    + unfold fire, bind, gets. cbn. rewrite Eh. js_cases; frame_tac w.
    + unfold fire, bind, gets. cbn. rewrite Eh. js_cases; frame_tac w.
    + by rewrite fire_absent.
Qed.

Lemma consistent_run es w :
  Forall (fun e => startsSession e = false) es ->
  consistent w -> consistent (run es w).
Proof.
  intros Hes. revert w.
  induction Hes as [|e es He _ IH]; intros w Hc; [done|].
  cbn. apply IH. by apply consistent_step.
Qed.

(** X16. In a game that is started while no flip-back is pending, the
    state stays consistent through the whole session, whatever is clicked
    and whichever callbacks fire: every matched card lies face up,
    [flippedCards] lists exactly the cards that lie face up unmatched,
    each once, the number of matched cards is twice [matchedPairs], and a
    flip-back is pending only for the two cards in [flippedCards]. *)
Theorem game_state_stays_consistent
    (d : string) (es : list Event) (w : World) :
  noFlipBackPending w ->
  Forall (fun e => startsSession e = false) es ->
  let w' := run (EStart d :: es) w in
  consistent w' /\
  (forall c, c ∈ deck w' -> matched c = true -> flipped c = true) /\
  (forall i c, deck w' !! i = Some c ->
     (Z.of_nat i ∈ flippedCards (gs w')
      <-> flipped c = true /\ matched c = false)) /\
  Z.of_nat (length (List.filter matched (deck w')))
  = (2 * matchedPairs (gs w'))%Z.
Proof.
  intros Hno Hes. cbn zeta.
  change (run (EStart d :: es) w) with (run es (step (EStart d) w)).
  assert (Hc : consistent (run es (step (EStart d) w))).
  { apply consistent_run; [done|]. by apply consistent_startGame. }
  split; [done|].
  destruct Hc as (H1 & H2 & H3 & H4 & H5 & H6 & H7 & H8).
  split_and!.
  - intros c Hin. unfold deck in Hin.
    apply list_elem_of_fmap in Hin as (l & -> & Hl). by apply H3.
  - intros i c Hi. unfold deck in Hi. rewrite list_lookup_fmap in Hi.
    destruct (cards _ !! i) as [l|] eqn:El; simplify_eq/=.
    assert (Hn : nthZ (cards (gs (run es (step (EStart d) w))))
                   (Z.of_nat i) = Some l).
    { unfold nthZ. rewrite (proj2 (Z.leb_le 0 _)) by lia.
      by rewrite Nat2Z.id. }
    rewrite H4. split.
    + intros (l' & Hl' & Hf & Hm). by simplify_eq.
    + intros [Hf Hm]. eauto.
  - exact H8.
Qed.

Lemma game_state_stays_consistent_witness :
  let w' := run (EStart "easy" :: [EClick 0; EClick 8; EClick 1; EClick 2])
                (initialWorld rndLast) in
  consistent w' /\
  (forall c, c ∈ deck w' -> matched c = true -> flipped c = true) /\
  (forall i c, deck w' !! i = Some c ->
     (Z.of_nat i ∈ flippedCards (gs w')
      <-> flipped c = true /\ matched c = false)) /\
  Z.of_nat (length (List.filter matched (deck w')))
  = (2 * matchedPairs (gs w'))%Z.
Proof.
  apply (game_state_stays_consistent "easy"
           [EClick 0; EClick 8; EClick 1; EClick 2] (initialWorld rndLast)).
  - intros h la lb H. discriminate H.
  - repeat constructor.
Defined.

Lemma filter_length_all {A} (f : A -> bool) (l : list A) :
  length (List.filter f l) = length l -> forall x, x ∈ l -> f x = true.
Proof.
  induction l as [|y l IH]; intros Hlen x Hx.
  - by apply not_elem_of_nil in Hx.
  - cbn in Hlen. pose proof (filter_length_le f l) as Hle.
    destruct (f y) eqn:E; cbn in Hlen; [|lia].
    apply elem_of_cons in Hx as [->|Hx]; [done|].
    apply IH; [lia|done].
Qed.

(** X17. In a consistent game the matched pairs never exceed half the
    deck, and once they reach it, that is once every card is matched, no
    click changes anything any more, whichever id it names. *)
Theorem all_matched_clicks_inert (w : World) (cardId : Z) :
  consistent w ->
  (2 * matchedPairs (gs w) <= Z.of_nat (length (deck w)))%Z /\
  (Z.of_nat (length (deck w)) = (2 * matchedPairs (gs w))%Z ->
   snd (handleCardClick cardId w) = w).
Proof.
  intros Hc. pose proof Hc as (_ & _ & _ & _ & _ & _ & _ & H8).
  unfold matchedCount in H8.
  pose proof (filter_length_le matched (deck w)) as Hle.
  split; [lia|]. intros Hall.
  destruct (gameActive (gs w)) eqn:Hact;
    [|by rewrite click_ignored by (by left)].
  destruct (nthZ (cards (gs w)) cardId) as [l|] eqn:Hl.
  - rewrite click_ignored; [done|]. right. exists l. split; [done|].
    right. left.
    apply (filter_length_all matched (deck w)); [lia|].
    unfold deck. apply list_elem_of_fmap. exists l. split; [done|].
    by eapply nthZ_elem.
  - unfold handleCardClick, bind, gets, cardAt. rewrite Hact. cbn.
    by rewrite Hl.
Qed.

Lemma all_matched_clicks_inert_witness :
  let w := run [EClick 0; EClick 8; EClick 1; EClick 9; EClick 2; EClick 10;
                EClick 3; EClick 11; EClick 4; EClick 12; EClick 5; EClick 13;
                EClick 6; EClick 14; EClick 7; EClick 15]
               (step (EStart "easy") (initialWorld rndLast)) in
  (2 * matchedPairs (gs w) <= Z.of_nat (length (deck w)))%Z /\
  snd (handleCardClick 3 w) = w.
Proof.
  destruct (all_matched_clicks_inert
              (run [EClick 0; EClick 8; EClick 1; EClick 9; EClick 2; EClick 10;
                EClick 3; EClick 11; EClick 4; EClick 12; EClick 5; EClick 13;
                EClick 6; EClick 14; EClick 7; EClick 15]
                   (step (EStart "easy") (initialWorld rndLast))) 3)
    as [Hle Hinert].
  - apply (consistent_run [EClick 0; EClick 8; EClick 1; EClick 9; EClick 2; EClick 10;
                EClick 3; EClick 11; EClick 4; EClick 12; EClick 5; EClick 13;
                EClick 6; EClick 14; EClick 7; EClick 15]
             (step (EStart "easy") (initialWorld rndLast))).
    + repeat constructor.
    + apply (consistent_startGame "easy" (initialWorld rndLast)).
      intros h la lb H. discriminate H.
  - split; [exact Hle|]. apply Hinert. vm_compute. reflexivity.
Defined.

Lemma faces_run es w :
  Forall (fun e => startsSession e = false) es -> faces (run es w) = faces w.
Proof.
  intros Hes. revert w.
  induction Hes as [|e es He _ IH]; intros w; [done|].
  cbn. fold (run es (step e w)). rewrite IH. by apply step_faces.
Qed.

(** X18. Between two starts the deck is fixed: no click, hint, callback or
    quit changes which card sits at which position, its id or its symbol;
    only the two flags of a card can change. *)
Theorem deck_fixed_within_session (es : list Event) (w : World) :
  Forall (fun e => startsSession e = false) es ->
  map (fun c => (id c, value c)) (deck (run es w))
  = map (fun c => (id c, value c)) (deck w) /\
  length (cards (gs (run es w))) = length (cards (gs w)).
Proof.
  intros Hes. pose proof (faces_run es w Hes) as Hf.
  split; [exact Hf|].
  apply (f_equal length) in Hf. unfold faces, deck in Hf.
  by rewrite !length_map in Hf.
Qed.

Lemma deck_fixed_within_session_witness :
  let es := [EClick 0; EClick 1; EHint; EFire 2; EQuit] in
  let w := run [EStart "easy"] (initialWorld rndLast) in
  map (fun c => (id c, value c)) (deck (run es w))
  = map (fun c => (id c, value c)) (deck w) /\
  length (cards (gs (run es w))) = length (cards (gs w)).
Proof.
  apply deck_fixed_within_session. repeat constructor.
Defined.

(** X19. Within a session the clock moves only when an interval callback
    fires, and then by exactly one second, whether or not the game is
    still active; clicks, hints, flip-backs, the win display and quitting
    leave it where it is. *)
Theorem timer_moves_only_by_ticks (e : Event) (w : World) :
  startsSession e = false ->
  timer (gs (step e w))
  = (timer (gs w)
     + match e with
       | EFire h => match tasks w !! h with Some TTick => 1 | _ => 0 end
       | _ => 0
       end)%Z.
Proof.
  intros Hs. unfold step.
  destruct e as [d|i| |[|]| | | |h]; cbn [handle].
  - done.
  - rewrite (proj1 (proj2 (proj2 (proj2 (handleCardClick_frame i w))))).
    lia.
  - destruct (hint_general w) as [->|(a & b & _ & [->| [->| ->]])];
      cbn; lia.
  - done.
  - cbn. lia.
  - cbn. lia.
  - js_cases; lia.
  - cbn. lia.
  - unfold fire, bind, gets. cbn.
    destruct (tasks w !! h) as [[| | |]|] eqn:E; cbn; try lia.
    js_cases; lia.
Qed.

Lemma timer_moves_only_by_ticks_witness :
  let w := run allPairsTrace (initialWorld rndLast) in
  timer (gs (step (EFire 1) w)) = (timer (gs w) + 1)%Z.
Proof.
  apply (timer_moves_only_by_ticks (EFire 1)
           (run allPairsTrace (initialWorld rndLast))).
  reflexivity.
Defined.
